(** * ThrowableProjectile: per-tick physics and collision response

    A shallow embedding of the server-side [ThrowableProjectile] class
    (constructor, [push], [detonate], [update], [handleCollision], [damage]),
    and of the client's drawing helpers [drawGroundGraphics] and [drawHitbox].

    JavaScript numbers are IEEE-754 binary64 values.  The program is written
    once, over an interface [Number] of the arithmetic it uses, and read at two
    instances: Rocq's primitive [float] (binary64, bit-exact, executable) and
    the real numbers [R] (the exact arithmetic the floating-point program
    approximates).  Control-flow properties are proved for every instance;
    algebraic laws are proved over [R]; concrete executions run over [float]. *)

From Stdlib Require Import ZArith QArith Reals Floats Lra Lia.
From stdpp Require Import base gmap sets list.

#[local] Set Warnings "-clear-no-such-hyp,-inexact-float".

(** ** Numbers *)

Class Number (num : Type) := {
  add : num -> num -> num;
  sub : num -> num -> num;
  mul : num -> num -> num;
  div : num -> num -> num;
  neg : num -> num;           (* unary minus *)
  sqrt : num -> num;          (* Math.sqrt *)
  ltb : num -> num -> bool;   (* a < b *)
  leb : num -> num -> bool;   (* a <= b *)
  eqb : num -> num -> bool;   (* a === b on numbers *)
  ofQ : Q -> num;             (* a decimal literal of the source *)
  MAX_VALUE : num             (* Number.MAX_VALUE *)
}.

Declare Scope num_scope.
Delimit Scope num_scope with num.
Infix "+" := add : num_scope.
Infix "-" := sub : num_scope.
Infix "*" := mul : num_scope.
Infix "/" := div : num_scope.
Notation "a <? b" := (ltb a b) : num_scope.
Notation "a >? b" := (ltb b a) : num_scope.
Notation "a <=? b" := (leb a b) : num_scope.
Notation "a >=? b" := (leb b a) : num_scope.

(** Truthiness of a JavaScript number: every number but [0], [-0] and [NaN]. *)
Definition truthy {num} `{Number num} (a : num) : bool :=
  negb (eqb a (ofQ 0)) && eqb a a.

Definition Z2float (z : Z) : float :=
  match z with
  | Z0 => 0%float
  | Zpos _ => PrimFloat.of_uint63 (Uint63.of_Z z)
  | Zneg p => PrimFloat.opp (PrimFloat.of_uint63 (Uint63.of_Z (Zpos p)))
  end.

(** binary64: a decimal literal [n/d] denotes the correctly rounded quotient. *)
#[export] Instance float_Number : Number float := {|
  add := PrimFloat.add;
  sub := PrimFloat.sub;
  mul := PrimFloat.mul;
  div := PrimFloat.div;
  neg := PrimFloat.opp;
  sqrt := PrimFloat.sqrt;
  ltb := PrimFloat.ltb;
  leb := PrimFloat.leb;
  eqb := PrimFloat.eqb;
  ofQ q := PrimFloat.div (Z2float (Qnum q)) (Z2float (Zpos (Qden q)));
  MAX_VALUE := 0x1.fffffffffffffp+1023%float
|}.

Definition Rltb (a b : R) : bool := if Rlt_dec a b then true else false.
Definition Rleb (a b : R) : bool := if Rle_dec a b then true else false.
Definition Reqb (a b : R) : bool := if Req_dec_T a b then true else false.

(** Exact arithmetic: the same constants and operations, without rounding. *)
#[export] Instance R_Number : Number R := {|
  add := Rplus;
  sub := Rminus;
  mul := Rmult;
  div := Rdiv;
  neg := Ropp;
  sqrt := R_sqrt.sqrt;
  ltb := Rltb;
  leb := Rleb;
  eqb := Reqb;
  ofQ := Q2R;
  MAX_VALUE := (IZR (2 ^ 1024 - 2 ^ 971))%R
|}.

(** ** Vectors

    [@common/utils/vector] is not among the sources at hand. *)

Module Vec.

Record t (num : Type) : Type := create { x : num; y : num }.
Arguments create {num} x y.
Arguments x {num} _.
Arguments y {num} _.

Section Ops.
Context {num : Type} `{Number num}.
Local Open Scope num_scope.

(** Modelled from the spec: [Vec.add] of the "Vector/Geometry Kernel: 2D
    vector arithmetic", componentwise. *)
Definition add (a b : t num) : t num := create (x a + x b) (y a + y b).

(** Modelled from the spec: [Vec.scale], componentwise. *)
Definition scale (a : t num) (n : num) : t num := create (x a * n) (y a * n).

(** Modelled from the spec: [Vec.dotProduct], the "v.n" of the reflection law. *)
Definition dotProduct (a b : t num) : num := x a * x b + y a * y b.

(** Modelled from the spec: [Vec.squaredLength], the "squaredLength(velocity)"
    that is compared with the squared thresholds. *)
Definition squaredLength (a : t num) : num := x a * x a + y a * y a.

(** Modelled from the spec: [Vec.length], the square root of the squared
    length. *)
Definition length (a : t num) : num := sqrt (squaredLength a).

(** Modelled from the spec: [Vec.clone], a fresh vector with the same
    components. *)
Definition clone (a : t num) : t num := create (x a) (y a).
End Ops.

End Vec.

Abbreviation Vector := Vec.t.

Module Geometry.
Section Ops.
Context {num : Type} `{Number num}.
Local Open Scope num_scope.

(** Modelled from the spec: [Geometry.distanceSquared], the
    "squared-distance" of the geometry kernel. *)
Definition distanceSquared (a b : Vector num) : num :=
  (Vec.x a - Vec.x b) * (Vec.x a - Vec.x b)
  + (Vec.y a - Vec.y b) * (Vec.y a - Vec.y b).
End Ops.
End Geometry.

Module Numeric.
Section Ops.
Context {num : Type} `{Number num}.
Local Open Scope num_scope.

(** Modelled from the spec: [Numeric.clamp], "clamp position into world
    bounds". *)
Definition clamp (value min max : num) : num :=
  if value <? max then (if value >? min then value else min) else max.
End Ops.
End Numeric.

(** ** Layers *)

Abbreviation Layer := Z (only parsing).

(** Modelled from the spec: [equalLayer] of [@common/utils/layer]; collision
    response bails when "the two objects are on different layers". *)
Definition equalLayer (a b : Layer) : bool := Z.eqb a b.

(** ** Hitboxes *)

#[warnings="-register-all"]
Inductive Hitbox (num : Type) : Type :=
| CircleHitbox (position : Vector num) (radius : num)
| RectangleHitbox (min max : Vector num)
| PolygonHitbox (center : Vector num) (points normals : list (Vector num))
| GroupHitbox (hitboxes : list (Hitbox num)).
Arguments CircleHitbox {num} position radius.
Arguments RectangleHitbox {num} min max.
Arguments PolygonHitbox {num} center points normals.
Arguments GroupHitbox {num} hitboxes.

(** A non-null [CollisionResponse]. *)
Record Collision (num : Type) : Type := mkCollision {
  dir : Vector num;
  pen : num
}.
Arguments mkCollision {num} dir pen.
Arguments dir {num} _.
Arguments pen {num} _.

Abbreviation CollisionResponse num := (option (Collision num)).

(** A non-null [IntersectionResponse] of [Hitbox.intersectsLine]. *)
Record Intersection (num : Type) : Type := mkIntersection {
  point : Vector num;
  normal : Vector num
}.
Arguments mkIntersection {num} point normal.
Arguments point {num} _.
Arguments normal {num} _.

(** ** World objects *)

Inductive ObjectCategory : Type := Player | Obstacle | Building | OtherCategory.

Inductive FlyoverPref : Type := Always | Sometimes | Never.

(** A reference to a game object: its identity and what never changes about
    it (its class and the part of its definition the projectile reads). *)
Record GameObject : Type := mkGameObject {
  id : nat;
  category : ObjectCategory;
  isStair : bool;            (* object.definition.isStair *)
  allowFlyover : FlyoverPref (* object.definition.allowFlyover *)
}.

Definition isObstacle (o : GameObject) : bool :=
  match category o with Obstacle => true | _ => false end.
Definition isPlayer (o : GameObject) : bool :=
  match category o with Player => true | _ => false end.
Definition isBuilding (o : GameObject) : bool :=
  match category o with Building => true | _ => false end.

(** The mutable fields of a game object. *)
Module Obj.
Record state (num : Type) : Type := mkState {
  dead : bool;
  collidable : bool;
  hitbox : option (Hitbox num);
  layer : Layer;
  door : option bool       (* object.door?.isOpen *)
}.
Arguments mkState {num} dead collidable hitbox layer door.
Arguments dead {num} _.
Arguments collidable {num} _.
Arguments hitbox {num} _.
Arguments layer {num} _.
Arguments door {num} _.
End Obj.

(** The heap of game objects, by identity. *)
Abbreviation World num := (nat -> Obj.state num) (only parsing).

(** ** The projectile *)

Inductive Drag : Type := Normal | Harsh.

Definition dragValue {num} `{Number num} (d : Drag) : num :=
  match d with
  | Normal => ofQ 0.001
  | Harsh => ofQ 0.005
  end.

Record ThrowableDefinition (num : Type) : Type := mkDefinition {
  c4 : bool;
  speedCap : num;
  impactDamage : option num;
  obstacleMultiplier : option num;
  def_health : option num;       (* definition.health *)
  explosion : option nat         (* definition.detonation.explosion *)
}.
Arguments mkDefinition {num} c4 speedCap impactDamage obstacleMultiplier def_health explosion.
Arguments c4 {num} _.
Arguments speedCap {num} _.
Arguments impactDamage {num} _.
Arguments obstacleMultiplier {num} _.
Arguments def_health {num} _.
Arguments explosion {num} _.

Record ThrowableProjectile (num : Type) : Type := mkProjectile {
  position : Vector num;          (* hitbox.position *)
  radius : num;                   (* hitbox.radius *)
  rotation : num;
  layer : Layer;
  dead : bool;
  health : option num;
  velocity : Vector num;
  angularVelocity : num;
  spawnTime : num;
  collideWithOwner : bool;
  airborne : bool;
  activated : bool;
  currentlyAbove : gset nat;
  currentDrag : Drag;
  damagedLastTick : gset nat;
  definition : ThrowableDefinition num;
  owner : GameObject              (* source.owner *)
}.
Arguments mkProjectile {num} _ _ _ _ _ _ _ _ _ _ _ _ _ _ _ _ _.
Arguments position {num} _.
Arguments radius {num} _.
Arguments rotation {num} _.
Arguments layer {num} _.
Arguments dead {num} _.
Arguments health {num} _.
Arguments velocity {num} _.
Arguments angularVelocity {num} _.
Arguments spawnTime {num} _.
Arguments collideWithOwner {num} _.
Arguments airborne {num} _.
Arguments activated {num} _.
Arguments currentlyAbove {num} _.
Arguments currentDrag {num} _.
Arguments damagedLastTick {num} _.
Arguments definition {num} _.
Arguments owner {num} _.

Section Setters.
Context {num : Type}.
Implicit Type p : ThrowableProjectile num.

Definition set_position p v :=
  mkProjectile v (radius p) (rotation p) (layer p) (dead p) (health p)
    (velocity p) (angularVelocity p) (spawnTime p) (collideWithOwner p)
    (airborne p) (activated p) (currentlyAbove p) (currentDrag p)
    (damagedLastTick p) (definition p) (owner p).
Definition set_rotation p r :=
  mkProjectile (position p) (radius p) r (layer p) (dead p) (health p)
    (velocity p) (angularVelocity p) (spawnTime p) (collideWithOwner p)
    (airborne p) (activated p) (currentlyAbove p) (currentDrag p)
    (damagedLastTick p) (definition p) (owner p).
Definition set_layer p l :=
  mkProjectile (position p) (radius p) (rotation p) l (dead p) (health p)
    (velocity p) (angularVelocity p) (spawnTime p) (collideWithOwner p)
    (airborne p) (activated p) (currentlyAbove p) (currentDrag p)
    (damagedLastTick p) (definition p) (owner p).
Definition set_dead p b :=
  mkProjectile (position p) (radius p) (rotation p) (layer p) b (health p)
    (velocity p) (angularVelocity p) (spawnTime p) (collideWithOwner p)
    (airborne p) (activated p) (currentlyAbove p) (currentDrag p)
    (damagedLastTick p) (definition p) (owner p).
Definition set_health p h :=
  mkProjectile (position p) (radius p) (rotation p) (layer p) (dead p) h
    (velocity p) (angularVelocity p) (spawnTime p) (collideWithOwner p)
    (airborne p) (activated p) (currentlyAbove p) (currentDrag p)
    (damagedLastTick p) (definition p) (owner p).
Definition set_velocity p v :=
  mkProjectile (position p) (radius p) (rotation p) (layer p) (dead p) (health p)
    v (angularVelocity p) (spawnTime p) (collideWithOwner p)
    (airborne p) (activated p) (currentlyAbove p) (currentDrag p)
    (damagedLastTick p) (definition p) (owner p).
Definition set_angularVelocity p a :=
  mkProjectile (position p) (radius p) (rotation p) (layer p) (dead p) (health p)
    (velocity p) a (spawnTime p) (collideWithOwner p)
    (airborne p) (activated p) (currentlyAbove p) (currentDrag p)
    (damagedLastTick p) (definition p) (owner p).
Definition set_collideWithOwner p b :=
  mkProjectile (position p) (radius p) (rotation p) (layer p) (dead p) (health p)
    (velocity p) (angularVelocity p) (spawnTime p) b
    (airborne p) (activated p) (currentlyAbove p) (currentDrag p)
    (damagedLastTick p) (definition p) (owner p).
Definition set_airborne p b :=
  mkProjectile (position p) (radius p) (rotation p) (layer p) (dead p) (health p)
    (velocity p) (angularVelocity p) (spawnTime p) (collideWithOwner p)
    b (activated p) (currentlyAbove p) (currentDrag p)
    (damagedLastTick p) (definition p) (owner p).
Definition set_activated p b :=
  mkProjectile (position p) (radius p) (rotation p) (layer p) (dead p) (health p)
    (velocity p) (angularVelocity p) (spawnTime p) (collideWithOwner p)
    (airborne p) b (currentlyAbove p) (currentDrag p)
    (damagedLastTick p) (definition p) (owner p).
Definition set_currentlyAbove p s :=
  mkProjectile (position p) (radius p) (rotation p) (layer p) (dead p) (health p)
    (velocity p) (angularVelocity p) (spawnTime p) (collideWithOwner p)
    (airborne p) (activated p) s (currentDrag p)
    (damagedLastTick p) (definition p) (owner p).
Definition set_currentDrag p d :=
  mkProjectile (position p) (radius p) (rotation p) (layer p) (dead p) (health p)
    (velocity p) (angularVelocity p) (spawnTime p) (collideWithOwner p)
    (airborne p) (activated p) (currentlyAbove p) d
    (damagedLastTick p) (definition p) (owner p).
Definition set_damagedLastTick p s :=
  mkProjectile (position p) (radius p) (rotation p) (layer p) (dead p) (health p)
    (velocity p) (angularVelocity p) (spawnTime p) (collideWithOwner p)
    (airborne p) (activated p) (currentlyAbove p) (currentDrag p)
    s (definition p) (owner p).
End Setters.

(** ** Calls into the rest of the game

    What the projectile does to its surroundings (and, for [HandleCollision],
    the entry into its own collision response), newest first in [trace]. *)

Inductive Event (num : Type) : Type :=
| Damage (target : nat) (amount : num) (source : nat)   (* object.damage({...}) *)
| StairInteraction (target : nat)      (* object.handleStairInteraction(this) *)
| HandleCollision (target : nat)       (* this.handleCollision(object) entered *)
| UpdateObject                         (* game.grid.updateObject(this) *)
| SetPartialDirty                      (* this.setPartialDirty() *)
| RegisterC4                           (* owner.c4s.push(this) *)
| DeregisterC4                         (* owner.c4s.splice(indexOf(this), 1) *)
| RemoveProjectile                     (* game.removeProjectile(this) *)
| AddExplosion (explosion : nat) (position : Vector num) (layer : Layer).
Arguments Damage {num} target amount source.
Arguments StairInteraction {num} target.
Arguments HandleCollision {num} target.
Arguments UpdateObject {num}.
Arguments SetPartialDirty {num}.
Arguments RegisterC4 {num}.
Arguments DeregisterC4 {num}.
Arguments RemoveProjectile {num}.
Arguments AddExplosion {num} explosion position layer.

(** The projectile in its game: itself, the objects around it, the pending
    [setTimeout] callbacks of [detonate] (their delays), and what it has done
    so far. *)
Record Sim (num : Type) : Type := mkSim {
  self : ThrowableProjectile num;
  world : World num;
  timers : list num;
  trace : list (Event num)
}.
Arguments mkSim {num} self world timers trace.
Arguments self {num} _.
Arguments world {num} _.
Arguments timers {num} _.
Arguments trace {num} _.

Definition set_self {num} (s : Sim num) (p : ThrowableProjectile num) : Sim num :=
  mkSim p (world s) (timers s) (trace s).
Definition set_world {num} (s : Sim num) (w : World num) : Sim num :=
  mkSim (self s) w (timers s) (trace s).
Definition set_timers {num} (s : Sim num) (t : list num) : Sim num :=
  mkSim (self s) (world s) t (trace s).
Definition emit {num} (e : Event num) (s : Sim num) : Sim num :=
  mkSim (self s) (world s) (timers s) (e :: trace s).

(** The values of [this.game] that one tick reads. *)
Record Game (num : Type) : Type := mkGame {
  dt : num;
  now : num;
  map_width : num;
  map_height : num
}.
Arguments mkGame {num} dt now map_width map_height.
Arguments dt {num} _.
Arguments now {num} _.
Arguments map_width {num} _.
Arguments map_height {num} _.

(** ** Collaborators

    Functions of the repository that the projectile calls and whose code is
    not among the sources at hand: the shape kernel of [@common/utils], the
    spatial grid, the terrain, and the methods of other game objects.  The
    program is parametric in them. *)

Class Externals (num : Type) := {
  Angle_normalize : num -> num;
  Vec_fromPolar : num -> num -> Vector num;
  circleCircleIntersection :
    Vector num -> num -> Vector num -> num -> CollisionResponse num;
  rectCircleIntersection :
    Vector num -> Vector num -> Vector num -> num -> CollisionResponse num;
  circlePolygonIntersection :
    Vector num -> num -> Vector num -> list (Vector num) -> list (Vector num) ->
    CollisionResponse num;
  (* receiver.collidesWith(argument) *)
  collidesWith : Hitbox num -> Hitbox num -> bool;
  (* hitbox.intersectsLine(a, b) *)
  intersectsLine : Hitbox num -> Vector num -> Vector num -> option (Intersection num);
  (* game.grid.intersectsHitbox(hitbox, layer?) *)
  grid_intersectsHitbox : World num -> Hitbox num -> option Layer -> list GameObject;
  (* FloorTypes[game.map.terrain.getFloor(position, layer)].overlay *)
  floor_overlay : Vector num -> Layer -> bool;
  (* target.damage({ amount, source, weaponUsed }) *)
  object_damage : GameObject -> num -> GameObject -> World num -> World num;
  (* object.handleStairInteraction(this): the projectile's layer afterwards *)
  handleStairInteraction : GameObject -> Layer -> Layer
}.

(** ** The program *)

Section Program.
Context {num : Type} {N : Number num} {E : Externals num}.
Local Open Scope num_scope.

Implicit Type s : Sim num.
Implicit Type this : ThrowableProjectile num.

(** [this.hitbox], a [CircleHitbox]. *)
Definition this_hitbox this : Hitbox num :=
  CircleHitbox (position this) (radius this).

(** [collision.dir.x = -collision.dir.x; collision.dir.y = -collision.dir.y] *)
Definition negate (c : Collision num) : Collision num :=
  mkCollision
    (Vec.create (neg (Vec.x (dir c))) (neg (Vec.y (dir c)))) (pen c).

(** The translation at the end of the inner [handleCollision] closure:
    [if (collision) this.hitbox.position = position + dir * pen]. *)
Definition translate (collision : CollisionResponse num) (pos : Vector num)
  : Vector num :=
  match collision with
  | Some c => Vec.add pos (Vec.scale (dir c) (pen c))
  | None => pos
  end.

(** The closure [handleCollision(hitbox)] inside the method
    [handleCollision]: the projectile's position goes in and comes out, with
    the collision response.  [selfRadius] is [this.hitbox.radius]. *)
Fixpoint resolve (selfRadius : num) (hitbox : Hitbox num) (pos : Vector num)
  : CollisionResponse num * Vector num :=
  let '(collision, pos) :=
    match hitbox with
    | CircleHitbox hpos hradius =>
        (circleCircleIntersection hpos hradius pos selfRadius, pos)
    | RectangleHitbox hmin hmax =>
        (option_map negate (rectCircleIntersection hmin hmax pos selfRadius), pos)
    | PolygonHitbox center points normals =>
        (option_map negate
           (circlePolygonIntersection pos selfRadius center points normals), pos)
    | GroupHitbox hitboxes =>
        (fix members (targets : list (Hitbox num))
             (collision : CollisionResponse num) (pos : Vector num)
           : CollisionResponse num * Vector num :=
           match targets with
           | [] => (collision, pos)
           | target :: rest =>
               if collidesWith target (CircleHitbox pos selfRadius)
               then let '(collision, pos) := resolve selfRadius target pos in
                    members rest collision pos
               else members rest collision pos
           end) hitboxes None pos
    end in
  (collision, translate collision pos).

(** The [for] loop of the [Group] case, from a given [collision] and
    position on. *)
Fixpoint resolveMembers (selfRadius : num) (targets : list (Hitbox num))
    (collision : CollisionResponse num) (pos : Vector num)
  : CollisionResponse num * Vector num :=
  match targets with
  | [] => (collision, pos)
  | target :: rest =>
      if collidesWith target (CircleHitbox pos selfRadius)
      then let '(collision, pos) := resolve selfRadius target pos in
           resolveMembers selfRadius rest collision pos
      else resolveMembers selfRadius rest collision pos
  end.

(** Lines 400-406: the new velocity, from the old one and the collision
    normal. *)
Definition reflect (v normal : Vector num) : Vector num :=
  let len := Vec.length v in
  let dir := Vec.scale v (ofQ 1 / len) in
  let dot := Vec.dotProduct dir normal in
  let newDir := Vec.add (Vec.scale normal (dot * ofQ (-2))) dir in
  Vec.scale newDir (len * ofQ 0.4).

(** The "bail early" condition of [handleCollision]. *)
Definition bailsEarly this (object : GameObject) (o : Obj.state num) : bool :=
  Obj.dead o
  || ((negb (isObstacle object || isBuilding object)
       || (isObstacle object && isStair object)
       || negb (Obj.collidable o)
       || negb (bool_decide (is_Some (Obj.hitbox o))))
      && (negb (isPlayer object)
          || (negb (collideWithOwner this)
              && bool_decide (id object = id (owner this))))).

Definition handleCollision (object : GameObject) s : Sim num :=
  let s := emit (HandleCollision (id object)) s in
  let this := self s in
  let o := world s (id object) in
  if bailsEarly this object o then s else
  match Obj.hitbox o with
  | None => s
  | Some hitbox =>
      if negb (collidesWith hitbox (this_hitbox this))
         || negb (equalLayer (layer this) (Obj.layer o))
      then s
      else
        let '(collision, pos) := resolve (radius this) hitbox (position this) in
        let this := set_position this pos in
        match collision with
        | Some c => set_self s (set_velocity this (reflect (velocity this) (dir c)))
        | None => set_self s this
        end
  end.

(** The constructor.  [radius ?? 1] is resolved by the caller. *)
Definition construct (time : num) (w : World num) (pos : Vector num)
    (l : Layer) (def : ThrowableDefinition num) (thrower : GameObject)
    (r : num) : Sim num :=
  let this :=
    mkProjectile pos r (ofQ 0) l false None (Vec.create (ofQ 0) (ofQ 0))
      (ofQ 0.0035) time false true false ∅ Normal ∅ def thrower in
  let s := mkSim this w [] [] in
  let s :=
    fold_left (fun s object => handleCollision object s)
      (grid_intersectsHitbox w (this_hitbox this) None) s in
  let s := if c4 def then emit RegisterC4 s else s in
  match def_health def with
  | Some h => if truthy h then set_self s (set_health (self s) (Some h)) else s
  | None => s
  end.

Definition push (angle speed : num) s : Sim num :=
  set_self s
    (set_velocity (self s)
       (Vec.add (velocity (self s)) (Vec_fromPolar angle speed))).

Definition calculateSafeDisplacement this (halfDt : num) : Vector num :=
  let displacement := Vec.scale (velocity this) halfDt in
  let displacementLength := Vec.length displacement in
  let maxDisplacement := speedCap (definition this) * halfDt in
  if displacementLength >? maxDisplacement
  then Vec.scale displacement (maxDisplacement / displacementLength)
  else displacement.

(** Modelled from the spec: [game.removeProjectile(this)], "deregister from
    the world (destroy transition)", after which the projectile is [dead]. *)
Definition removeProjectile s : Sim num :=
  emit RemoveProjectile (set_self s (set_dead (self s) true)).

Definition detonate (delay : num) s : Sim num :=
  let s := set_self s (set_activated (self s) true) in
  let s := emit SetPartialDirty s in
  set_timers s (timers s ++ [delay]).

(** The callback that [detonate] hands to [setTimeout]. *)
Definition detonation s : Sim num :=
  if dead (self s) then s else
  let s := removeProjectile s in
  let referencePosition := Vec.clone (position (self s)) in
  match explosion (definition (self s)) with
  | Some ex => emit (AddExplosion ex referencePosition (layer (self s))) s
  | None => s
  end.

(** The oldest pending timer fires. *)
Definition timeout s : Sim num :=
  match timers s with
  | [] => s
  | _ :: rest => detonation (set_timers s rest)
  end.

Definition damage (amount : num) s : Sim num :=
  match health (self s) with
  | None => s
  | Some h =>
      if negb (truthy h) then s else
      let h := h - amount in
      let s := set_self s (set_health (self s) (Some h)) in
      if h <=? ofQ 0
      then removeProjectile (emit DeregisterC4 s)
      else s
  end.

(** *** [update] *)

(** [closestIntersection]; [object = None] stands for the initial
    [this as GameObject]. *)
Record Closest : Type := mkClosest {
  closest_dist : num;
  closest_position : Vector num;
  closest_normal : Vector num;
  intersected : bool;
  closest_object : option GameObject
}.

(** What the candidate loop reads and writes. *)
Record Scan : Type := mkScan {
  sim : Sim num;
  damagedThisTick : gset nat;
  closestIntersection : Closest
}.

Definition set_sim (sc : Scan) s : Scan :=
  mkScan s (damagedThisTick sc) (closestIntersection sc).

(** Lines 156-166: the two half steps around the drag, and the rotation. *)
Definition integrate (game : Game num) this : ThrowableProjectile num :=
  let halfDt := ofQ 0.5 * dt game in
  let this :=
    set_position this
      (Vec.add (position this) (calculateSafeDisplacement this halfDt)) in
  let this :=
    set_velocity this
      (Vec.scale (velocity this)
         (ofQ 1 / (ofQ 1 + dt game * dragValue (currentDrag this)))) in
  let this :=
    set_position this
      (Vec.add (position this) (calculateSafeDisplacement this halfDt)) in
  set_rotation this
    (Angle_normalize (rotation this + angularVelocity this * dt game)).

Definition impactDamage_threshold : num := ofQ 0.0009.
Definition flyover_threshold : num := ofQ 0.0009.
Definition highFlyover_threshold : num := ofQ 0.0016.

Definition flyoverCondMap (currentSquaredVel : num) (pref : FlyoverPref) : bool :=
  match pref with
  | Always => currentSquaredVel >=? flyover_threshold
  | Sometimes => currentSquaredVel >=? highFlyover_threshold
  | Never => false
  end.

(** [object.door?.isOpen !== false] *)
Definition doorNotClosed (o : Obj.state num) : bool :=
  match Obj.door o with
  | Some false => false
  | _ => true
  end.

Definition canFlyOver (currentSquaredVel : num) this
    (object : GameObject) (o : Obj.state num) : bool :=
  if isObstacle object
  then doorNotClosed o
       && ((Obj.layer o <? layer this)%Z
           || flyoverCondMap currentSquaredVel (allowFlyover object))
  else flyoverCondMap currentSquaredVel (allowFlyover object).

(** The "ignore this object if" condition at the head of the loop. *)
Definition ignores (shouldDealImpactDamage : bool) this
    (object : GameObject) (o : Obj.state num) : bool :=
  Obj.dead o
  || ((negb (isObstacle object || isBuilding object)
       || negb (Obj.collidable o)
       || negb (bool_decide (is_Some (Obj.hitbox o))))
      && (negb (isPlayer object)
          || negb shouldDealImpactDamage
          || (negb (collideWithOwner this)
              && bool_decide (id object = id (owner this))))).

(** [impactDamage * ((isObstacle ? obstacleMultiplier : undefined) ?? 1)] *)
Definition impactAmount this (impact : num) (object : GameObject) : num :=
  impact * (if isObstacle object
            then default (ofQ 1) (obstacleMultiplier (definition this))
            else ofQ 1).

(** Lines 269-300: the rest of the loop body for an object that was not
    skipped by the fly-over branch. *)
Definition react (oldPosition : Vector num) (shouldDealImpactDamage : bool)
    (object : GameObject) (lineIntersection : option (Intersection num))
    (collidingWithObject : bool) (sc : Scan) : Scan :=
  let sc :=
    match lineIntersection with
    | Some li =>
        let dist := Geometry.distanceSquared oldPosition (point li) in
        if dist <? closest_dist (closestIntersection sc)
        then mkScan (sim sc) (damagedThisTick sc)
               (mkClosest dist (point li) (normal li) true (Some object))
        else sc
    | None => sc
    end in
  if negb collidingWithObject then sc else
  let this := self (sim sc) in
  let collide (sc : Scan) : Scan :=
    let s := handleCollision object (sim sc) in
    set_sim sc
      (set_self s
         (set_angularVelocity (self s) (angularVelocity (self s) * ofQ 0.6))) in
  match impactDamage (definition this) with
  | Some impact =>
      if shouldDealImpactDamage
         && negb (bool_decide (id object ∈ damagedLastTick this))
      then
        let amount := impactAmount this impact object in
        let s := emit (Damage (id object) amount (id (owner this))) (sim sc) in
        let s := set_world s (object_damage object amount (owner this) (world s)) in
        if Obj.dead (world s (id object)) then set_sim sc s else
        collide (mkScan s ({[ id object ]} ∪ damagedThisTick sc)
                   (closestIntersection sc))
      else collide sc
  | None => collide sc
  end.

(** [collidingWithObject = lineIntersection || isGeometricCollision] *)
Definition colliding (oldPosition : Vector num) this (hitbox : Hitbox num) : bool :=
  let lineIntersection := intersectsLine hitbox oldPosition (position this) in
  let isGeometricCollision := collidesWith (this_hitbox this) hitbox in
  bool_decide (is_Some lineIntersection) || isGeometricCollision.

(** One iteration of the loop over the grid's candidates.  A player always
    has a hitbox, so that [object.hitbox!] is defined for every object that
    passes the filter. *)
Definition scanObject (oldPosition : Vector num) (currentSquaredVel : num)
    (shouldDealImpactDamage : bool) (sc : Scan) (object : GameObject) : Scan :=
  let s := sim sc in
  let this := self s in
  let o := world s (id object) in
  if ignores shouldDealImpactDamage this object o then sc else
  match Obj.hitbox o with
  | None => sc
  | Some hitbox =>
      let lineIntersection := intersectsLine hitbox oldPosition (position this) in
      let collidingWithObject := colliding oldPosition this hitbox in
      let continue_react :=
        react oldPosition shouldDealImpactDamage object lineIntersection
          collidingWithObject in
      if isObstacle object || isBuilding object then
        if collidingWithObject then
          let isAbove := canFlyOver currentSquaredVel this object o in
          let this :=
            if isAbove
            then set_currentlyAbove this ({[ id object ]} ∪ currentlyAbove this)
            else set_currentDrag this Harsh in
          if isObstacle object && isStair object then
            let s := emit (StairInteraction (id object)) (set_self s this) in
            set_sim sc
              (set_self s
                 (set_layer (self s)
                    (handleStairInteraction object (layer (self s)))))
          else if isAbove || bool_decide (id object ∈ currentlyAbove this)
          then set_sim sc (set_self s this)
          else
            continue_react
              (set_sim sc
                 (set_self s
                    (set_currentlyAbove this (currentlyAbove this ∖ {[ id object ]}))))
        else
          continue_react
            (set_sim sc
               (set_self s
                  (set_currentlyAbove this (currentlyAbove this ∖ {[ id object ]}))))
      else continue_react sc
  end.

(** Lines 168-180: the airborne flag and the drag of the floor. *)
Definition classify this : ThrowableProjectile num :=
  let currentSquaredVel := Vec.squaredLength (velocity this) in
  let remainAirborne := currentSquaredVel >=? impactDamage_threshold in
  if negb remainAirborne then
    let this := set_airborne this false in
    if floor_overlay (position this) (layer this)
    then set_currentDrag this Harsh
    else this
  else this.

Definition initialClosest : Closest :=
  mkClosest MAX_VALUE (Vec.create (ofQ 0) (ofQ 0)) (Vec.create (ofQ 0) (ofQ 0))
    false None.

(** Lines 303-311: the swept correction. *)
Definition sweep (closest : Closest) s : Sim num :=
  if intersected closest then
    let this := self s in
    let s :=
      set_self s
        (set_position this
           (Vec.add (Vec.scale (closest_normal closest) (radius this))
              (position this))) in
    match closest_object closest with
    | Some object => handleCollision object s
    | None => s
    end
  else s.

(** Lines 313-319. *)
Definition finish (game : Game num) (damaged : gset nat) s : Sim num :=
  let this := self s in
  let selfRadius := radius this in
  let px :=
    Numeric.clamp (Vec.x (position this)) selfRadius (map_width game - selfRadius) in
  let this := set_position this (Vec.create px (Vec.y (position this))) in
  let py :=
    Numeric.clamp (Vec.y (position this)) selfRadius (map_height game - selfRadius) in
  let this := set_position this (Vec.create (Vec.x (position this)) py) in
  let this :=
    set_collideWithOwner this
      (collideWithOwner this || (now game - spawnTime this >=? ofQ 250)) in
  let this := set_damagedLastTick this damaged in
  emit SetPartialDirty (emit UpdateObject (set_self s this)).

(** The loop constants of one tick: [oldPosition], [currentSquaredVel] and
    [shouldDealImpactDamage]; the projectile as the loop finds it; the grid's
    candidates. *)
Definition tick_oldPosition s : Vector num := Vec.clone (position (self s)).

Definition tick_squaredVel (game : Game num) s : num :=
  Vec.squaredLength (velocity (integrate game (self s))).

Definition tick_shouldDeal (game : Game num) s : bool :=
  bool_decide (is_Some (impactDamage (definition (integrate game (self s)))))
  && (tick_squaredVel game s >=? impactDamage_threshold).

Definition prepared (game : Game num) s : Sim num :=
  set_self s (classify (integrate game (self s))).

Definition candidates (game : Game num) s : list GameObject :=
  let this := self (prepared game s) in
  grid_intersectsHitbox (world s) (this_hitbox this) (Some (layer this)).

Definition scanStep (game : Game num) s : Scan -> GameObject -> Scan :=
  scanObject (tick_oldPosition s) (tick_squaredVel game s) (tick_shouldDeal game s).

(** The loop state after the objects [objects] have been visited. *)
Definition scanned (game : Game num) s (objects : list GameObject) : Scan :=
  fold_left (scanStep game s) objects (mkScan (prepared game s) ∅ initialClosest).

Definition update (game : Game num) s : Sim num :=
  if c4 (definition (self s)) then set_self s (set_airborne (self s) false) else
  let sc := scanned game s (candidates game s) in
  let s := sweep (closestIntersection sc) (sim sc) in
  finish game (damagedThisTick sc) s.

(** *** Runs *)

Inductive Op : Type :=
| OpUpdate (game : Game num)      (* one simulation tick *)
| OpPush (angle speed : num)       (* this.push(angle, speed) *)
| OpDamage (amount : num)         (* this.damage({ amount }) *)
| OpDetonate (delay : num)        (* this.detonate(delay) *)
| OpTimeout                       (* a pending detonation timer fires *)
| OpWorld (w : World num).        (* the rest of the game moves on *)

Definition exec (s : Sim num) (op : Op) : Sim num :=
  match op with
  | OpUpdate game => update game s
  | OpPush angle speed => push angle speed s
  | OpDamage amount => damage amount s
  | OpDetonate delay => detonate delay s
  | OpTimeout => timeout s
  | OpWorld w => set_world s w
  end.

Definition run (ops : list Op) (s : Sim num) : Sim num := fold_left exec ops s.

End Program.

Arguments Op num : clear implicits.
Arguments Scan num : clear implicits.
Arguments Closest num : clear implicits.

(** ** A concrete world for executions

    The executions below use circles and groups of circles only. *)

Section CircleWorld.
Context {num : Type} {N : Number num}.
Local Open Scope num_scope.

(** Modelled from the spec: the circle case of the shape kernel's
    [resolvePenetration].  "Penetration resolution: minimal translation +
    direction needed to separate two overlapping shapes", with the direction
    pointing "away from the other shape, toward the circle": for the circles
    [A] (the other shape) and [B] (the projectile), the unit vector from the
    centre of [A] to the centre of [B] and the overlap of the radii. *)
Definition circle_resolve (centerA : Vector num) (radiusA : num)
    (centerB : Vector num) (radiusB : num) : CollisionResponse num :=
  let r := radiusA + radiusB in
  let toB := Vec.create (Vec.x centerB - Vec.x centerA) (Vec.y centerB - Vec.y centerA) in
  let distSqr := Vec.squaredLength toB in
  if distSqr <? r * r
  then Some (mkCollision (Vec.scale toB (ofQ 1 / sqrt distSqr)) (r - sqrt distSqr))
  else None.

(** Modelled from the spec: [intersects(shapeA, shapeB)] for circles and
    groups of circles; a group overlaps what one of its members overlaps. *)
Fixpoint circle_collides (a b : Hitbox num) : bool :=
  match a, b with
  | CircleHitbox pa ra, CircleHitbox pb rb =>
      Geometry.distanceSquared pa pb <? (ra + rb) * (ra + rb)
  | GroupHitbox hs, _ =>
      (fix any (hs : list (Hitbox num)) : bool :=
         match hs with
         | [] => false
         | h :: hs => circle_collides h b || any hs
         end) hs
  | _, _ => false
  end.

(** Modelled from the spec: collaborators for the executions.  The grid
    reports every object of [objects]; rectangles and polygons report nothing;
    there is no terrain overlay and no line intersection; angles are already
    canonical; throws are along the x axis; damage leaves the target as it
    is, except that an amount of at least 100 kills it. *)
Definition circleWorld (objects : list GameObject) : Externals num := {|
  Angle_normalize a := a;
  Vec_fromPolar _ magnitude := Vec.create magnitude (ofQ 0);
  circleCircleIntersection := circle_resolve;
  rectCircleIntersection _ _ _ _ := None;
  circlePolygonIntersection _ _ _ _ _ := None;
  collidesWith a b :=
    match a with
    | CircleHitbox _ _ => circle_collides b a
    | _ => circle_collides a b
    end;
  intersectsLine _ _ _ := None;
  grid_intersectsHitbox _ _ _ := objects;
  floor_overlay _ _ := false;
  object_damage target amount _ w :=
    if amount >=? ofQ 100
    then fun i =>
           if bool_decide (i = id target)
           then Obj.mkState true (Obj.collidable (w i)) (Obj.hitbox (w i))
                  (Obj.layer (w i)) (Obj.door (w i))
           else w i
    else w;
  handleStairInteraction _ l := l
|}.

End CircleWorld.

(** ** Scenarios

    One thrower, one wall (a circle of radius 1 centred at (501.5, 500) that
    may not be flown over) and a fragmentation grenade of radius 1 at
    (500, 500), in the middle of the map, which overlaps the wall by 0.5. *)

Section Scenarios.
Context {num : Type} {N : Number num}.

Definition thrower : GameObject := mkGameObject 0 Player false Never.
Definition wall : GameObject := mkGameObject 1 Obstacle false Never.

Definition vec (x y : Q) : Vector num := Vec.create (ofQ x) (ofQ y).

Definition frag : ThrowableDefinition num :=
  mkDefinition false (ofQ 0.15) (Some (ofQ 1)) (Some (ofQ 20)) None (Some 7%nat).

(** The wall at (501.5, 500); every other object, the thrower included, is a
    circle of radius 1 centred at [elsewhere]. *)
Definition arena (elsewhere : Vector num) : World num := fun i =>
  match i with
  | 1%nat => Obj.mkState false true (Some (CircleHitbox (vec 501.5 500) (ofQ 1))) 0%Z None
  | _ => Obj.mkState false true (Some (CircleHitbox elsewhere (ofQ 1))) 0%Z None
  end.

(** A grenade in flight at (500, 500), spawned at time 0. *)
Definition grenade (v : Vector num) : ThrowableProjectile num :=
  mkProjectile (vec 500 500) (ofQ 1) (ofQ 0) 0%Z false None v (ofQ 0.0035) (ofQ 0)
    false true false ∅ Normal ∅ frag thrower.

Definition flying (v : Vector num) : Sim num :=
  mkSim (grenade v) (arena (vec 100 100)) [] [].

(** A tick of [dt] milliseconds at time [now], on a 1024 x 1024 map. *)
Definition tick (dt now : Q) : Game num :=
  mkGame (ofQ dt) (ofQ now) (ofQ 1024) (ofQ 1024).

End Scenarios.

(** ** Notions for the statements *)

(** [grows P l l']: the trace [l'] extends [l] by events that satisfy [P]. *)
Inductive grows {A : Type} (P : A -> Prop) (l : list A) : list A -> Prop :=
| grows_same : grows P l l
| grows_more e l' : P e -> grows P l l' -> grows P l (e :: l').

(** The object an event is about. *)
Definition target_of {num} (e : Event num) : option nat :=
  match e with
  | Damage target _ _ => Some target
  | StairInteraction target => Some target
  | HandleCollision target => Some target
  | _ => None
  end.

(** The number of explosions spawned so far. *)
Fixpoint explosions {num} (l : list (Event num)) : nat :=
  match l with
  | [] => 0
  | AddExplosion _ _ _ :: l => S (explosions l)
  | _ :: l => explosions l
  end.

(** The calls of [handleCollision] among the events of a trace. *)
Fixpoint responses {num} (l : list (Event num)) : nat :=
  match l with
  | [] => 0
  | HandleCollision _ :: l => S (responses l)
  | _ :: l => responses l
  end.

(** The state of the detonation machinery that bounds the explosions: at most
    one has been spawned, and if one has, the projectile is dead. *)
Definition exploded_at_most_once {num} (s : Sim num) : Prop :=
  explosions (trace s) <= 1 /\ (explosions (trace s) = 1 -> dead (self s) = true).

(** The reflection law in the spec's words: [v' = (v - 2(v.n)n) * 0.4]. *)
Definition reflection_law {num} `{Number num} (v n : Vector num) : Vector num :=
  let k := (ofQ 2 * Vec.dotProduct v n)%num in
  Vec.scale
    (Vec.create (Vec.x v - k * Vec.x n)%num (Vec.y v - k * Vec.y n)%num)
    (ofQ 0.4).

Section Notions.
Context {num : Type} {N : Number num} {E : Externals num}.

Implicit Type this : ThrowableProjectile num.

(** The fields that nothing in [update] but its last lines writes. *)
Record same_identity this this' : Prop := {
  same_radius : radius this' = radius this;
  same_dead : dead this' = dead this;
  same_health : health this' = health this;
  same_spawnTime : spawnTime this' = spawnTime this;
  same_collideWithOwner : collideWithOwner this' = collideWithOwner this;
  same_activated : activated this' = activated this;
  same_damagedLastTick : damagedLastTick this' = damagedLastTick this;
  same_definition : definition this' = definition this;
  same_owner : owner this' = owner this;
  airborne_falls : airborne this = false -> airborne this' = false;
  drag_sticks : currentDrag this = Harsh -> currentDrag this' = Harsh
}.

(** The projectile overlaps the object or crosses it on its way. *)
Definition overlaps (oldPosition : Vector num) this (o : Obj.state num) : bool :=
  match Obj.hitbox o with
  | Some hitbox => colliding oldPosition this hitbox
  | None => false
  end.

(** The object gets past both the filter and the fly-over branch. *)
Definition reacted (shouldDealImpactDamage : bool) this (object : GameObject)
    (o : Obj.state num) : Prop :=
  ignores shouldDealImpactDamage this object o = false
  /\ (isObstacle object || isBuilding object = true ->
      id object ∉ currentlyAbove this).

(** The events the iteration for [object] may add. *)
Definition step_event (shouldDealImpactDamage : bool) this (object : GameObject)
    (o : Obj.state num) (e : Event num) : Prop :=
  match e with
  | StairInteraction target =>
      target = id object
      /\ ignores shouldDealImpactDamage this object o = false
  | Damage target _ _ =>
      target = id object /\ reacted shouldDealImpactDamage this object o
      /\ shouldDealImpactDamage = true
      /\ id object ∉ damagedLastTick this
  | HandleCollision target =>
      target = id object /\ reacted shouldDealImpactDamage this object o
  | _ => False
  end.

(** No collision occurs in the tick: every candidate of the grid is either
    filtered out or neither overlapped by the projectile (where the
    integration has put it) nor crossed on its way there. *)
Definition no_collision (game : Game num) (s : Sim num) : Prop :=
  forall o, o ∈ candidates game s ->
    ignores (tick_shouldDeal game s) (self (prepared game s)) o (world s (id o)) = true
    \/ overlaps (tick_oldPosition s) (self (prepared game s)) (world s (id o)) = false.

(** The tick runs no collision response: [handleCollision] is called neither
    by the loop over the candidates nor by the swept correction. *)
Definition no_response (game : Game num) (s : Sim num) : Prop :=
  forall evs, trace (update game s) = evs ++ trace s -> responses evs = 0.

End Notions.

(** ** The thrower's list of C4s

    [owner.c4s] is an array of the projectiles that the thrower has placed;
    here a projectile in it is named by a number.  [indexOf] and [splice] are
    the methods of [Array.prototype]. *)

(** [array.indexOf(x)]: the first index that holds [x], or -1. *)
Fixpoint indexOf (x : nat) (l : list nat) : Z :=
  match l with
  | [] => -1
  | y :: l =>
      if bool_decide (y = x) then 0
      else let i := indexOf x l in if (i <? 0)%Z then -1 else (i + 1)%Z
  end.

(** [array.splice(start, deleteCount)], the array afterwards: a negative
    [start] counts from the end, and what is out of range is clamped. *)
Definition splice (start deleteCount : Z) (l : list nat) : list nat :=
  let len := Z.of_nat (length l) in
  let actualStart :=
    if (start <? 0)%Z then Z.max (len + start) 0 else Z.min start len in
  let actualDeleteCount := Z.min (Z.max deleteCount 0) (len - actualStart) in
  take (Z.to_nat actualStart) l
  ++ drop (Z.to_nat (actualStart + actualDeleteCount)) l.

(** What an event of the projectile [me] does to [owner.c4s]. *)
Definition c4s_event {num} (me : nat) (e : Event num) (c4s : list nat) : list nat :=
  match e with
  | RegisterC4 => c4s ++ [me]
  | DeregisterC4 => splice (indexOf me c4s) 1 c4s
  | _ => c4s
  end.

(** [owner.c4s] after the events of a trace, the oldest (the last) first. *)
Definition c4s_after {num} (me : nat) (tr : list (Event num)) (c4s : list nat)
    : list nat :=
  foldr (c4s_event me) c4s tr.

(** ** The client's drawing helpers

    [drawGroundGraphics] and [drawHitbox] of
    [client/src/scripts/utils/pixi.ts] walk a hitbox and call methods of a
    pixi.js [Graphics] object.  The object is modelled by the calls made on
    it, oldest first; a colour is a number. *)

Module Graphics.
Inductive call (num : Type) : Type :=
| rect (x y w h : num)
| arc (x y radius startAngle endAngle : num)
| poly (points : list (Vector num))
| setStrokeStyle (color : nat) (width alpha : num)
| beginPath
| moveTo (x y : num)
| lineTo (x y : num)
| closePath
| stroke.
Arguments rect {num} x y w h.
Arguments arc {num} x y radius startAngle endAngle.
Arguments poly {num} points.
Arguments setStrokeStyle {num} color width alpha.
Arguments beginPath {num}.
Arguments moveTo {num} x y.
Arguments lineTo {num} x y.
Arguments closePath {num}.
Arguments stroke {num}.
End Graphics.

Section Drawing.
Context {num : Type} {N : Number num}.
Local Open Scope num_scope.

(** [PIXI_SCALE] of [./constants], which is not among the sources at hand,
    and [Math.PI]. *)
Variable PIXI_SCALE : num.
Variable Math_PI : num.

Definition toPixiCoords (pos : Vector num) : Vector num :=
  Vec.scale pos PIXI_SCALE.

(** [scale = PIXI_SCALE]: an omitted argument is [None]. *)
Fixpoint drawGroundGraphics (hitbox : Hitbox num)
    (graphics : list (Graphics.call num)) (scale : option num)
  : list (Graphics.call num) :=
  let scale := default PIXI_SCALE scale in
  match hitbox with
  | RectangleHitbox hmin hmax =>
      graphics
      ++ [Graphics.rect (Vec.x hmin * scale) (Vec.y hmin * scale)
            ((Vec.x hmax - Vec.x hmin) * scale)
            ((Vec.y hmax - Vec.y hmin) * scale)]
  | CircleHitbox position radius =>
      graphics
      ++ [Graphics.arc (Vec.x position * scale) (Vec.y position * scale)
            (radius * scale) (ofQ 0) (Math_PI * ofQ 2)]
  | PolygonHitbox _ points _ =>
      graphics ++ [Graphics.poly (map (fun v => Vec.scale v scale) points)]
  | GroupHitbox hitboxes =>
      (fix members (hitboxes : list (Hitbox num))
           (graphics : list (Graphics.call num)) : list (Graphics.call num) :=
         match hitboxes with
         | [] => graphics
         | hitBox :: rest => members rest (drawGroundGraphics hitBox graphics None)
         end) hitboxes graphics
  end.

(** [alpha = 1]: an omitted argument is [None]. *)
Fixpoint drawHitbox (hitbox : Hitbox num) (color : nat)
    (graphics : list (Graphics.call num)) (alpha : option num)
  : list (Graphics.call num) :=
  let alpha := default (ofQ 1) alpha in
  if eqb alpha (ofQ 0) then graphics else
  let graphics :=
    graphics ++ [Graphics.setStrokeStyle color (ofQ 2) alpha; Graphics.beginPath] in
  let graphics :=
    match hitbox with
    | RectangleHitbox hmin hmax =>
        let min := toPixiCoords hmin in
        let max := toPixiCoords hmax in
        graphics
        ++ [Graphics.moveTo (Vec.x min) (Vec.y min);
            Graphics.lineTo (Vec.x max) (Vec.y min);
            Graphics.lineTo (Vec.x max) (Vec.y max);
            Graphics.lineTo (Vec.x min) (Vec.y max);
            Graphics.lineTo (Vec.x min) (Vec.y min)]
    | CircleHitbox position radius =>
        let pos := toPixiCoords position in
        graphics
        ++ [Graphics.arc (Vec.x pos) (Vec.y pos) (radius * PIXI_SCALE) (ofQ 0)
              (Math_PI * ofQ 2)]
    | GroupHitbox hitboxes =>
        (fix members (hitboxes : list (Hitbox num))
             (graphics : list (Graphics.call num)) : list (Graphics.call num) :=
           match hitboxes with
           | [] => graphics
           | h :: rest => members rest (drawHitbox h color graphics (Some alpha))
           end) hitboxes graphics
    | PolygonHitbox _ points _ =>
        graphics ++ [Graphics.poly (map toPixiCoords points)]
    end in
  graphics ++ [Graphics.closePath; Graphics.stroke].

End Drawing.

(** The hitboxes of a hitbox that are no groups, at any depth, in order. *)
Fixpoint leaves {num} (hitbox : Hitbox num) : list (Hitbox num) :=
  match hitbox with
  | GroupHitbox hitboxes =>
      (fix members (hitboxes : list (Hitbox num)) : list (Hitbox num) :=
         match hitboxes with
         | [] => []
         | h :: rest => leaves h ++ members rest
         end) hitboxes
  | _ => [hitbox]
  end.

(** The hitboxes of a hitbox at any depth, itself and the groups included. *)
Fixpoint nodes {num} (hitbox : Hitbox num) : nat :=
  match hitbox with
  | GroupHitbox hitboxes =>
      S ((fix members (hitboxes : list (Hitbox num)) : nat :=
            match hitboxes with
            | [] => 0
            | h :: rest => nodes h + members rest
            end) hitboxes)
  | _ => 1
  end.

Definition is_stroke {num} (c : Graphics.call num) : bool :=
  match c with Graphics.stroke => true | _ => false end.
Definition is_beginPath {num} (c : Graphics.call num) : bool :=
  match c with Graphics.beginPath => true | _ => false end.
Definition is_closePath {num} (c : Graphics.call num) : bool :=
  match c with Graphics.closePath => true | _ => false end.

(** A call that sets a stroke style sets the given colour and [alpha], and
    the width 2. *)
Definition styled {num} `{Number num} (color : nat) (alpha : num)
    (c : Graphics.call num) : Prop :=
  forall color' width alpha',
    c = Graphics.setStrokeStyle color' width alpha' ->
    color' = color /\ width = ofQ 2 /\ alpha' = alpha.

(** * Properties *)

(** ** The constants of the source, in binary64 *)

Example literals_binary64 :
  (dragValue (num := float) Normal, dragValue (num := float) Harsh)
  = (0.001, 0.005)%float
  /\ (impactDamage_threshold, flyover_threshold, highFlyover_threshold)
     = (0.0009, 0.0009, 0.0016)%float
  /\ (ofQ 0.5, ofQ 0.4, ofQ 0.6, ofQ (-2), ofQ 250, ofQ 0.0035)
     = (0.5, 0.4, 0.6, -2, 250, 0.0035)%float
  /\ MAX_VALUE = 1.7976931348623157e308%float.
Proof. repeat split; reflexivity. Qed.

(** A bounce off a wall below, in binary64: the code and the law agree up to
    rounding, not bit for bit. *)
Example reflect_binary64 :
  reflect (vec 0.03 0.04 : Vector float) (vec 0 (-1))
  = Vec.create 0.012000000000000002%float (-0.016000000000000004)%float
  /\ reflection_law (vec 0.03 0.04 : Vector float) (vec 0 (-1))
     = Vec.create 0.012%float (-0.016)%float.
Proof. split; vm_compute; reflexivity. Qed.

(** ** The pieces of a tick leave most of the projectile alone *)

Section Frames.
Context {num : Type} {N : Number num} {E : Externals num}.
Local Open Scope num_scope.

Implicit Type s : Sim num.
Implicit Type this : ThrowableProjectile num.
Implicit Type sc : Scan num.

Lemma same_identity_refl this : same_identity this this.
Proof. by constructor. Qed.

Lemma same_identity_trans this1 this2 this3 :
  same_identity this1 this2 -> same_identity this2 this3 ->
  same_identity this1 this3.
Proof.
  intros [] []; constructor; try congruence; auto.
Qed.

Lemma resolveMembers_eq selfRadius targets collision pos :
  (fix members (targets : list (Hitbox num))
       (collision : CollisionResponse num) (pos : Vector num)
     : CollisionResponse num * Vector num :=
     match targets with
     | [] => (collision, pos)
     | target :: rest =>
         if collidesWith target (CircleHitbox pos selfRadius)
         then let '(collision, pos) := resolve selfRadius target pos in
              members rest collision pos
         else members rest collision pos
     end) targets collision pos
  = resolveMembers selfRadius targets collision pos.
Proof.
  revert collision pos.
  induction targets as [|target rest IH]; intros collision pos; [reflexivity|].
  cbn [resolveMembers].
  destruct (collidesWith target (CircleHitbox pos selfRadius)); [|apply IH].
  destruct (resolve selfRadius target pos) as [c p]. apply IH.
Qed.

(** The [Group] case of the closure, in terms of its loop. *)
Lemma resolve_group selfRadius hitboxes pos :
  resolve selfRadius (GroupHitbox hitboxes) pos
  = let '(collision, pos) := resolveMembers selfRadius hitboxes None pos in
    (collision, translate collision pos).
Proof.
  cbn [resolve]. rewrite resolveMembers_eq. reflexivity.
Qed.

(** [handleCollision] writes the position and the velocity, and nothing
    else. *)
Lemma handleCollision_writes object s :
  exists pos v,
    handleCollision object s
    = emit (HandleCollision (id object))
        (set_self s (set_velocity (set_position (self s) pos) v)).
Proof.
  assert (Hid : emit (HandleCollision (id object)) s
                = emit (HandleCollision (id object))
                    (set_self s
                       (set_velocity (set_position (self s) (position (self s)))
                          (velocity (self s))))).
  { destruct s as [[] ? ? ?]; reflexivity. }
  unfold handleCollision. cbn [self world emit].
  destruct (bailsEarly _ _ _); [eauto|].
  destruct (Obj.hitbox _) as [hitbox|]; [|eauto].
  destruct (_ || _); [eauto|].
  destruct (resolve _ _ _) as [[c|] pos].
  - exists pos, (reflect (velocity (self s)) (dir c)). reflexivity.
  - exists pos, (velocity (self s)). reflexivity.
Qed.

Lemma handleCollision_trace object s :
  trace (handleCollision object s) = HandleCollision (id object) :: trace s.
Proof. destruct (handleCollision_writes object s) as (? & ? & ->). reflexivity. Qed.

Lemma handleCollision_world object s :
  world (handleCollision object s) = world s.
Proof. destruct (handleCollision_writes object s) as (? & ? & ->). reflexivity. Qed.

Lemma handleCollision_timers object s :
  timers (handleCollision object s) = timers s.
Proof. destruct (handleCollision_writes object s) as (? & ? & ->). reflexivity. Qed.

Lemma handleCollision_identity object s :
  same_identity (self s) (self (handleCollision object s)).
Proof.
  destruct (handleCollision_writes object s) as (? & ? & ->).
  by constructor.
Qed.

Lemma handleCollision_currentlyAbove object s :
  currentlyAbove (self (handleCollision object s)) = currentlyAbove (self s).
Proof. destruct (handleCollision_writes object s) as (? & ? & ->). reflexivity. Qed.

Lemma handleCollision_layer object s :
  layer (self (handleCollision object s)) = layer (self s).
Proof. destruct (handleCollision_writes object s) as (? & ? & ->). reflexivity. Qed.

End Frames.

(** ** What one iteration of the candidate loop can do *)

Lemma player_kind (object : GameObject) :
  isPlayer object = true -> isObstacle object = false /\ isBuilding object = false.
Proof. unfold isPlayer, isObstacle, isBuilding. by destruct (category object). Qed.


Lemma grows_app {A : Type} (P : A -> Prop) (l l' : list A) :
  grows P l l' <-> exists evs, l' = evs ++ l /\ Forall P evs.
Proof.
  split.
  - induction 1 as [|e l' He _ (evs & -> & Hevs)].
    + exists []. split; [reflexivity | constructor].
    + exists (e :: evs). split; [reflexivity | by constructor].
  - intros (evs & -> & Hevs). induction Hevs; cbn; by constructor.
Qed.

Lemma grows_trans {A : Type} (P : A -> Prop) (l1 l2 l3 : list A) :
  grows P l1 l2 -> grows P l2 l3 -> grows P l1 l3.
Proof. intros H12 H23. induction H23; [done | by constructor]. Qed.

Lemma grows_weaken {A : Type} (P Q : A -> Prop) (l l' : list A) :
  (forall e, P e -> Q e) -> grows P l l' -> grows Q l l'.
Proof. intros HPQ H. induction H; constructor; auto. Qed.

Section Loop.
Context {num : Type} {N : Number num} {E : Externals num}.
Local Open Scope num_scope.

Implicit Type s : Sim num.
Implicit Type this : ThrowableProjectile num.
Implicit Type sc : Scan num.

Variable oldPosition : Vector num.
Variable currentSquaredVel : num.
Variable shouldDealImpactDamage : bool.

Local Opaque handleCollision.

Ltac scan_cases :=
  unfold scanObject, react;
  repeat match goal with
    | |- context [match ?b with _ => _ end] =>
        lazymatch b with
        | context [match _ with _ => _ end] => fail
        | _ => destruct b eqn:?
        end
    end;
  cbn in *;
  rewrite ?handleCollision_trace, ?handleCollision_world,
    ?handleCollision_timers, ?handleCollision_currentlyAbove,
    ?handleCollision_layer;
  cbn;
  repeat match goal with
    | H : bool_decide _ = false |- _ => apply bool_decide_eq_false in H
    | H : bool_decide _ = true |- _ => apply bool_decide_eq_true in H
    | H : _ || _ = false |- _ => apply orb_false_iff in H as [? ?]
    | H : _ && _ = true |- _ => apply andb_true_iff in H as [? ?]
    | H : negb _ = true |- _ => apply negb_true_iff in H
    | H : negb _ = false |- _ => apply negb_false_iff in H
    end;
  try match goal with
    | Hc : colliding _ _ ?h = false, Hl : intersectsLine ?h _ _ = Some _ |- _ =>
        exfalso; unfold colliding in Hc; rewrite Hl in Hc; discriminate Hc
    end.

Ltac scan_done :=
  repeat split;
  try done;
  try (intros;
       repeat match goal with
         | H : ?b = false, H' : context [?b] |- _ => rewrite H in H'
         | H : ?b = true, H' : context [?b] |- _ => rewrite H in H'
         end;
       cbn in *; (done || congruence || set_solver)).

Lemma scanObject_grows sc object :
  grows (step_event shouldDealImpactDamage (self (sim sc)) object
           (world (sim sc) (id object)))
    (trace (sim sc))
    (trace (sim (scanObject oldPosition currentSquaredVel
                   shouldDealImpactDamage sc object))).
Proof.
  scan_cases.
  all: repeat first [ apply grows_same | apply grows_more ].
  all: unfold step_event, reacted; scan_done.
Qed.

Lemma scanObject_timers sc object :
  let sc' := scanObject oldPosition currentSquaredVel shouldDealImpactDamage sc object in
  timers (sim sc') = timers (sim sc).
Proof. scan_cases; scan_done. Qed.

Lemma scanObject_identity sc object :
  same_identity (self (sim sc))
    (self (sim (scanObject oldPosition currentSquaredVel
                  shouldDealImpactDamage sc object))).
Proof.
  scan_cases.
  all: repeat match goal with
         | |- context [handleCollision ?o ?s] =>
             destruct (handleCollision_writes o s) as (? & ? & ->)
         end.
  all: constructor; cbn in *; try congruence; try done.
Qed.
Lemma scanObject_ignored sc object :
  ignores shouldDealImpactDamage (self (sim sc)) object
    (world (sim sc) (id object)) = true ->
  scanObject oldPosition currentSquaredVel shouldDealImpactDamage sc object = sc.
Proof. intros H. unfold scanObject. by rewrite H. Qed.

(** An obstacle or building that is in [currentlyAbove] when its turn comes
    is never the closest intersection and never marked as damaged. *)
Lemma scanObject_above sc object :
  isObstacle object || isBuilding object = true ->
  id object ∈ currentlyAbove (self (sim sc)) ->
  let sc' := scanObject oldPosition currentSquaredVel shouldDealImpactDamage sc object in
  closestIntersection sc' = closestIntersection sc
  /\ damagedThisTick sc' = damagedThisTick sc.
Proof.
  intros Hkind Hin. cbn zeta. revert Hkind Hin.
  scan_cases; intros; scan_done.
Qed.

Lemma scanObject_closest sc object :
  let sc' := scanObject oldPosition currentSquaredVel shouldDealImpactDamage sc object in
  closestIntersection sc' = closestIntersection sc
  \/ (closest_object (closestIntersection sc') = Some object
      /\ reacted shouldDealImpactDamage (self (sim sc)) object
           (world (sim sc) (id object))).
Proof.
  cbn zeta. unfold reacted.
  scan_cases; first [ by left | right; scan_done ].
Qed.

Lemma scanObject_currentlyAbove_other sc object (j : nat) :
  j <> id object ->
  j ∈ currentlyAbove (self (sim (scanObject oldPosition currentSquaredVel
                                   shouldDealImpactDamage sc object)))
  <-> j ∈ currentlyAbove (self (sim sc)).
Proof.
  intros Hj. scan_cases; set_solver.
Qed.

(** Sticky hysteresis: a member of [currentlyAbove] that is skipped by the
    filter or still colliding stays a member. *)
Lemma scanObject_persists sc object :
  id object ∈ currentlyAbove (self (sim sc)) ->
  ignores shouldDealImpactDamage (self (sim sc)) object
    (world (sim sc) (id object)) = true
  \/ overlaps oldPosition (self (sim sc)) (world (sim sc) (id object)) = true ->
  id object ∈ currentlyAbove
    (self (sim (scanObject oldPosition currentSquaredVel
                  shouldDealImpactDamage sc object))).
Proof.
  intros Hin Hcoll. unfold overlaps in Hcoll. revert Hin Hcoll.
  scan_cases; intros ? [?|?]; try congruence; set_solver.
Qed.

(** The drag is raised for every colliding obstacle or building that cannot
    be flown over, whether it is in [currentlyAbove] or not. *)
Lemma scanObject_drag sc object :
  ignores shouldDealImpactDamage (self (sim sc)) object
    (world (sim sc) (id object)) = false ->
  isObstacle object || isBuilding object = true ->
  overlaps oldPosition (self (sim sc)) (world (sim sc) (id object)) = true ->
  canFlyOver currentSquaredVel (self (sim sc)) object
    (world (sim sc) (id object)) = false ->
  currentDrag (self (sim (scanObject oldPosition currentSquaredVel
                            shouldDealImpactDamage sc object))) = Harsh.
Proof.
  intros Hign Hkind Hcoll Hfly. unfold overlaps in Hcoll.
  revert Hign Hkind Hcoll Hfly.
  scan_cases; intros; try congruence.
  all: repeat match goal with
         | |- context [handleCollision ?o ?s] =>
             destruct (handleCollision_writes o s) as (? & ? & ->)
         end; cbn; try done.
  all: scan_done.
Qed.

(** An obstacle or building that passes the filter and is neither overlapped
    nor crossed leaves [currentlyAbove]. *)
Lemma scanObject_released sc object :
  isObstacle object || isBuilding object = true ->
  ignores shouldDealImpactDamage (self (sim sc)) object
    (world (sim sc) (id object)) = false ->
  overlaps oldPosition (self (sim sc)) (world (sim sc) (id object)) = false ->
  id object ∉ currentlyAbove
    (self (sim (scanObject oldPosition currentSquaredVel
                  shouldDealImpactDamage sc object))).
Proof.
  intros Hkind Hign Hover. unfold overlaps in Hover.
  assert (Hbox : is_Some (Obj.hitbox (world (sim sc) (id object)))).
  { unfold ignores in Hign. apply orb_false_iff in Hign as [_ Hign].
    destruct (isPlayer object) eqn:Hp.
    - destruct (player_kind object Hp) as [Ho Hb]. rewrite Ho, Hb in Hkind. done.
    - cbn in Hign. rewrite andb_true_r in Hign.
      apply orb_false_iff in Hign as [_ Hign].
      apply negb_false_iff, bool_decide_eq_true in Hign. done. }
  destruct Hbox as [hitbox Hbox]. rewrite Hbox in Hover.
  unfold scanObject, react. rewrite Hign, Hbox, Hkind, Hover.
  destruct (intersectsLine _ _ _) eqn:Hline.
  - unfold colliding in Hover. by rewrite Hline in Hover.
  - cbn. set_solver.
Qed.

(** An object that is skipped, or neither overlapped nor crossed, changes
    nothing but (possibly) [currentlyAbove]. *)
Lemma scanObject_quiet sc object :
  ignores shouldDealImpactDamage (self (sim sc)) object
    (world (sim sc) (id object)) = true
  \/ overlaps oldPosition (self (sim sc)) (world (sim sc) (id object)) = false ->
  exists above,
    scanObject oldPosition currentSquaredVel shouldDealImpactDamage sc object
    = set_sim sc (set_self (sim sc) (set_currentlyAbove (self (sim sc)) above)).
Proof.
  intros Hq. unfold overlaps, colliding in Hq.
  assert (Hsame : sc = set_sim sc (set_self (sim sc)
            (set_currentlyAbove (self (sim sc)) (currentlyAbove (self (sim sc)))))).
  { destruct sc as [[[] ? ? ?] ? ?]; reflexivity. }
  revert Hq. unfold scanObject, react, colliding.
  destruct (ignores _ _ _ _); [intros _; eauto|].
  destruct (Obj.hitbox _) as [hitbox|]; [|intros _; eauto].
  intros [?|Hq]; [done|]. rewrite Hq.
  apply orb_false_iff in Hq as [Hline _].
  destruct (intersectsLine _ _ _); [done|].
  destruct (isObstacle object || isBuilding object); cbn; eauto.
Qed.

(** The loop body never writes the airborne flag or the rotation. *)
Lemma scanObject_flags sc object :
  let sc' := scanObject oldPosition currentSquaredVel shouldDealImpactDamage sc object in
  airborne (self (sim sc')) = airborne (self (sim sc))
  /\ rotation (self (sim sc')) = rotation (self (sim sc)).
Proof.
  cbn zeta. scan_cases.
  all: repeat match goal with
         | |- context [handleCollision ?o ?s] =>
             destruct (handleCollision_writes o s) as (? & ? & ->)
         end; cbn; done.
Qed.

(** A stair gets the stair hook and nothing else. *)
Lemma scanObject_stair sc object :
  isObstacle object && isStair object = true ->
  let sc' := scanObject oldPosition currentSquaredVel shouldDealImpactDamage sc object in
  grows (fun e => e = StairInteraction (id object)) (trace (sim sc)) (trace (sim sc'))
  /\ closestIntersection sc' = closestIntersection sc
  /\ damagedThisTick sc' = damagedThisTick sc
  /\ position (self (sim sc')) = position (self (sim sc))
  /\ velocity (self (sim sc')) = velocity (self (sim sc)).
Proof.
  intros Hstair. apply andb_true_iff in Hstair as [Hobs Hstair].
  cbn zeta. unfold scanObject, react. rewrite Hobs, Hstair. cbn [orb andb].
  destruct (ignores _ _ _ _); [by repeat split; try constructor|].
  destruct (Obj.hitbox _) as [hitbox|]; [|by repeat split; try constructor].
  destruct (colliding _ _ hitbox) eqn:Hcoll.
  - cbn. destruct (canFlyOver _ _ _ _); repeat split; try done;
      by repeat constructor.
  - destruct (intersectsLine _ _ _) eqn:Hline.
    + unfold colliding in Hcoll. by rewrite Hline in Hcoll.
    + cbn. by repeat split; try constructor.
Qed.

(** What one iteration adds to [damagedThisTick]: at most the object itself,
    and only after damaging it outside its tick of grace. *)
Lemma scanObject_damaged sc object :
  let sc' := scanObject oldPosition currentSquaredVel shouldDealImpactDamage sc object in
  damagedThisTick sc' = damagedThisTick sc
  \/ (damagedThisTick sc' = {[ id object ]} ∪ damagedThisTick sc
      /\ (id object ∉ damagedLastTick (self (sim sc)))
      /\ (exists amount source,
            trace (sim sc')
            = HandleCollision (id object) :: Damage (id object) amount source
                :: trace (sim sc))).
Proof.
  cbn zeta. scan_cases; first [ by left | right; scan_done; eauto ].
Qed.

(** A colliding obstacle or building that cannot be flown over is neither
    added to [currentlyAbove] nor, if it was there, removed by this
    iteration. *)
Lemma scanObject_not_above sc object :
  ignores shouldDealImpactDamage (self (sim sc)) object
    (world (sim sc) (id object)) = false ->
  isObstacle object || isBuilding object = true ->
  overlaps oldPosition (self (sim sc)) (world (sim sc) (id object)) = true ->
  canFlyOver currentSquaredVel (self (sim sc)) object
    (world (sim sc) (id object)) = false ->
  id object ∈ currentlyAbove
    (self (sim (scanObject oldPosition currentSquaredVel
                  shouldDealImpactDamage sc object)))
  <-> id object ∈ currentlyAbove (self (sim sc)).
Proof.
  intros Hign Hkind Hcoll Hfly. unfold overlaps in Hcoll.
  revert Hign Hkind Hcoll Hfly.
  scan_cases; intros; try congruence; set_solver.
Qed.

(** Only obstacles and buildings that can be flown over join
    [currentlyAbove]. *)
Lemma scanObject_joins sc object (j : nat) :
  j ∈ currentlyAbove
    (self (sim (scanObject oldPosition currentSquaredVel
                  shouldDealImpactDamage sc object))) ->
  j ∈ currentlyAbove (self (sim sc))
  \/ (j = id object
      /\ isObstacle object || isBuilding object = true
      /\ canFlyOver currentSquaredVel (self (sim sc)) object
           (world (sim sc) (id object)) = true).
Proof.
  scan_cases; intros Hj; try (by left).
  all: try (apply elem_of_union in Hj as [Hj|Hj];
            [apply elem_of_singleton in Hj; right; scan_done | by left]).
  all: try (left; set_solver).
Qed.

(** Without impact damage the other objects are left as they are. *)
Lemma scanObject_world_harmless sc object :
  shouldDealImpactDamage = false ->
  world (sim (scanObject oldPosition currentSquaredVel
                shouldDealImpactDamage sc object)) = world (sim sc).
Proof.
  intros Hno. revert Hno. scan_cases; intros; try done; congruence.
Qed.

(** One iteration calls [handleCollision] at most once; it multiplies the
    angular velocity by 0.6 exactly when it does, and leaves the position
    alone when it does not. *)
Lemma scanObject_responses sc object :
  let sc' := scanObject oldPosition currentSquaredVel shouldDealImpactDamage sc object in
  exists evs,
    trace (sim sc') = evs ++ trace (sim sc)
    /\ responses evs <= 1
    /\ angularVelocity (self (sim sc'))
       = Nat.iter (responses evs) (fun a => a * ofQ 0.6)
           (angularVelocity (self (sim sc)))
    /\ (responses evs = 0 ->
        position (self (sim sc')) = position (self (sim sc))).
Proof.
  cbn zeta. scan_cases.
  all: repeat match goal with
         | |- context [handleCollision ?o ?s] =>
             destruct (handleCollision_writes o s) as (? & ? & ->)
         end; cbn.
  all: first
         [ exists []; cbn; repeat split; (done || lia)
         | eexists [_]; cbn; repeat split; (done || lia)
         | eexists [_; _]; cbn; repeat split; (done || lia) ].
Qed.


End Loop.

(** ** A whole tick *)

Section Tick.
Context {num : Type} {N : Number num} {E : Externals num}.
Local Open Scope num_scope.

Implicit Type s : Sim num.
Implicit Type this : ThrowableProjectile num.
Implicit Type sc : Scan num.

Variable game : Game num.

Lemma integrate_identity this : same_identity this (integrate game this).
Proof. by constructor. Qed.

Lemma classify_identity this : same_identity this (classify this).
Proof.
  unfold classify. destruct (negb _); [|apply same_identity_refl].
  destruct (floor_overlay _ _); by constructor.
Qed.

Lemma classify_currentlyAbove this :
  currentlyAbove (classify this) = currentlyAbove this.
Proof.
  unfold classify. destruct (negb _); [|done].
  by destruct (floor_overlay _ _).
Qed.

Lemma prepared_identity s : same_identity (self s) (self (prepared game s)).
Proof.
  eapply same_identity_trans; [apply integrate_identity|].
  apply classify_identity.
Qed.

Lemma prepared_currentlyAbove s :
  currentlyAbove (self (prepared game s)) = currentlyAbove (self s).
Proof. unfold prepared. cbn. by rewrite classify_currentlyAbove. Qed.

Lemma scanned_app s (l1 l2 : list GameObject) :
  scanned game s (l1 ++ l2) = fold_left (scanStep game s) l2 (scanned game s l1).
Proof. unfold scanned. apply fold_left_app. Qed.

Lemma scanned_snoc s (l : list GameObject) (object : GameObject) :
  scanned game s (l ++ [object]) = scanStep game s (scanned game s l) object.
Proof. by rewrite scanned_app. Qed.

Lemma fold_scan_identity s (l : list GameObject) sc :
  same_identity (self (sim sc)) (self (sim (fold_left (scanStep game s) l sc))).
Proof.
  revert sc. induction l as [|object l IH]; intros sc; cbn.
  - apply same_identity_refl.
  - eapply same_identity_trans; [|apply IH]. apply scanObject_identity.
Qed.

Lemma fold_scan_timers s (l : list GameObject) sc :
  timers (sim (fold_left (scanStep game s) l sc)) = timers (sim sc).
Proof.
  revert sc. induction l as [|object l IH]; intros sc; cbn; [done|].
  rewrite IH. apply scanObject_timers.
Qed.

(** The loop, for an invariant [Inv] of the loop state and the objects
    still to come, and a property [P] of the events. *)
Lemma fold_scan_grows s (Inv : Scan num -> list GameObject -> Prop)
    (P : Event num -> Prop) :
  (forall sc object rest,
      Inv sc (object :: rest) ->
      Inv (scanStep game s sc object) rest
      /\ forall e,
          step_event (tick_shouldDeal game s) (self (sim sc)) object
            (world (sim sc) (id object)) e -> P e) ->
  forall (l : list GameObject) sc,
    Inv sc l ->
    grows P (trace (sim sc)) (trace (sim (fold_left (scanStep game s) l sc)))
    /\ Inv (fold_left (scanStep game s) l sc) [].
Proof.
  intros Hstep l. induction l as [|object l IH]; intros sc HInv; cbn.
  - split; [constructor | done].
  - destruct (Hstep sc object l HInv) as [HInv' HP].
    destruct (IH _ HInv') as [Hg Hend]. split; [|done].
    eapply grows_trans; [|exact Hg].
    eapply grows_weaken; [exact HP|]. apply scanObject_grows.
Qed.

Lemma sweep_identity (closest : Closest num) s :
  same_identity (self s) (self (sweep closest s)).
Proof.
  unfold sweep. destruct (intersected closest); [|apply same_identity_refl].
  destruct (closest_object closest) as [object|]; [|by constructor].
  eapply same_identity_trans; [|apply handleCollision_identity].
  by constructor.
Qed.

Lemma sweep_currentlyAbove (closest : Closest num) s :
  currentlyAbove (self (sweep closest s)) = currentlyAbove (self s).
Proof.
  unfold sweep. destruct (intersected closest); [|done].
  destruct (closest_object closest) as [object|]; [|done].
  by rewrite handleCollision_currentlyAbove.
Qed.

Lemma sweep_timers (closest : Closest num) s :
  timers (sweep closest s) = timers s.
Proof.
  unfold sweep. destruct (intersected closest); [|done].
  destruct (closest_object closest) as [object|]; [|done].
  by rewrite handleCollision_timers.
Qed.

Lemma sweep_grows (P : Event num -> Prop) (closest : Closest num) s :
  (forall object, closest_object closest = Some object ->
                  P (HandleCollision (id object))) ->
  grows P (trace s) (trace (sweep closest s)).
Proof.
  intros HP. unfold sweep. destruct (intersected closest); [|constructor].
  destruct (closest_object closest) as [object|]; [|constructor].
  rewrite handleCollision_trace. constructor; [by apply HP | constructor].
Qed.

(** The events of a tick, from an invariant of its loop. *)
Lemma update_grows s (Inv : Scan num -> list GameObject -> Prop)
    (P : Event num -> Prop) :
  P UpdateObject -> P SetPartialDirty ->
  Inv (mkScan (prepared game s) ∅ initialClosest) (candidates game s) ->
  (forall sc object rest,
      Inv sc (object :: rest) ->
      Inv (scanStep game s sc object) rest
      /\ forall e,
          step_event (tick_shouldDeal game s) (self (sim sc)) object
            (world (sim sc) (id object)) e -> P e) ->
  (forall sc object,
      Inv sc [] -> closest_object (closestIntersection sc) = Some object ->
      P (HandleCollision (id object))) ->
  grows P (trace s) (trace (update game s)).
Proof.
  intros HU HD H0 Hstep Hsweep. unfold update.
  destruct (c4 _); [constructor|].
  destruct (fold_scan_grows s Inv P Hstep _ _ H0) as [Hg Hend].
  fold (scanned game s (candidates game s)) in Hg, Hend.
  cbn [finish emit trace].
  do 2 (constructor; [done|]). cbn.
  eapply grows_trans; [exact Hg|].
  apply sweep_grows. intros object Hobj. by eapply Hsweep.
Qed.

Lemma update_identity s :
  c4 (definition (self s)) = false ->
  let this' := self (update game s) in
  radius this' = radius (self s)
  /\ dead this' = dead (self s)
  /\ health this' = health (self s)
  /\ spawnTime this' = spawnTime (self s)
  /\ activated this' = activated (self s)
  /\ definition this' = definition (self s)
  /\ owner this' = owner (self s)
  /\ (airborne (self s) = false -> airborne this' = false)
  /\ (currentDrag (self s) = Harsh -> currentDrag this' = Harsh)
  /\ collideWithOwner this'
     = collideWithOwner (self s) || (now game - spawnTime (self s) >=? ofQ 250)
  /\ timers (update game s) = timers s.
Proof.
  intros Hc4. unfold update. rewrite Hc4. cbn zeta.
  set (sc := scanned game s (candidates game s)).
  pose proof (prepared_identity s) as H1.
  pose proof (fold_scan_identity s (candidates game s)
                (mkScan (prepared game s) ∅ initialClosest)) as H2.
  fold (scanned game s (candidates game s)) in H2. fold sc in H2. cbn in H2.
  pose proof (sweep_identity (closestIntersection sc) (sim sc)) as H3.
  pose proof (same_identity_trans _ _ _ (same_identity_trans _ _ _ H1 H2) H3) as [].
  assert (Ht : timers (sim sc) = timers s).
  { unfold sc, scanned. by rewrite fold_scan_timers. }
  cbn. rewrite sweep_timers, Ht.
  repeat split; try congruence; auto.
Qed.

End Tick.

(** ** Anti-chain-reaction *)

Section DamagedLastTick.
Context {num : Type} {N : Number num} {E : Externals num}.

(** C4: an object that is in [damagedLastTick] when a tick starts receives no
    impact damage from that tick's [update]: none of the events the tick adds
    to the trace is a [Damage] of that object, whatever overlaps or is crossed. *)
Theorem damagedLastTick_not_damaged (game : Game num) (s : Sim num) (i : nat) :
  i ∈ damagedLastTick (self s) ->
  exists evs,
    trace (update game s) = evs ++ trace s
    /\ forall amount source, Damage i amount source ∉ evs.
Proof.
  intros Hi.
  pose (P := fun e : Event num => forall amount source, e <> Damage i amount source).
  assert (Hg : grows P (trace s) (trace (update game s))).
  { apply (update_grows game s
             (fun sc _ => i ∈ damagedLastTick (self (sim sc))) P).
    - by intros ? ?.
    - by intros ? ?.
    - cbn [sim]. by rewrite (same_damagedLastTick _ _ (prepared_identity game s)).
    - intros sc object rest Hin. split.
      + unfold scanStep.
        by rewrite (same_damagedLastTick _ _ (scanObject_identity _ _ _ sc object)).
      + intros [t a src| | | | | | | |] He amount source Heq; try done.
        cbn in He. destruct He as (-> & _ & _ & Hnot). by simplify_eq.
    - by intros ? ? ? ? ? ?. }
  apply grows_app in Hg as (evs & Heq & Hall).
  exists evs. split; [done|].
  intros amount source Hin.
  rewrite Forall_forall in Hall. by apply (Hall _ Hin amount source).
Qed.

End DamagedLastTick.

(** The wall was hit during the last tick and still overlaps the grenade. *)
Lemma damagedLastTick_not_damaged_witness :
  let s : Sim float :=
    mkSim (set_damagedLastTick (grenade (vec 0.05 0)) {[ 1%nat ]})
      (arena (vec 100 100)) [] [] in
  1%nat ∈ damagedLastTick (self s)
  /\ exists evs,
      trace (update (E := circleWorld [wall]) (tick 25 30) s) = evs ++ trace s
      /\ forall amount source, Damage 1%nat amount source ∉ evs.
Proof.
  cbn zeta. split.
  - cbn. set_solver.
  - apply damagedLastTick_not_damaged. cbn. set_solver.
Defined.

(** ** Runs: the airborne flag and the detonation timers *)

Section Runs.
Context {num : Type} {N : Number num} {E : Externals num}.

Implicit Type s : Sim num.

Lemma update_airborne (game : Game num) s :
  airborne (self s) = false -> airborne (self (update game s)) = false.
Proof.
  intros Ha. destruct (c4 (definition (self s))) eqn:Hc4.
  - unfold update. by rewrite Hc4.
  - by apply (update_identity game s Hc4).
Qed.

Lemma update_dead (game : Game num) s :
  dead (self (update game s)) = dead (self s).
Proof.
  destruct (c4 (definition (self s))) eqn:Hc4.
  - unfold update. by rewrite Hc4.
  - by apply (update_identity game s Hc4).
Qed.

Lemma update_explosions (game : Game num) s :
  explosions (trace (update game s)) = explosions (trace s).
Proof.
  pose (P := fun e : Event num =>
               match e with AddExplosion _ _ _ => False | _ => True end).
  assert (Hg : grows P (trace s) (trace (update game s))).
  { apply (update_grows game s (fun _ _ => True) P); try done.
    intros sc object rest _. split; [done|]. by intros []. }
  induction Hg as [|e l' He _ IH]; [done|].
  rewrite <- IH. by destruct e.
Qed.

Lemma exec_airborne s (op : Op num) :
  airborne (self s) = false -> airborne (self (exec s op)) = false.
Proof.
  intros Ha. destruct op as [game|angle speed|amount|delay| |w]; cbn.
  - by apply update_airborne.
  - done.
  - unfold damage. destruct (health (self s)) as [h|]; [|done].
    destruct (negb (truthy h)); [done|]. by destruct (leb _ _).
  - done.
  - unfold timeout. destruct (timers s) as [|t rest]; [done|].
    unfold detonation. cbn. destruct (dead (self s)); [done|].
    cbn. by destruct (explosion _).
  - done.
Qed.

(** C6: the airborne flag only ever goes from true to false.  If it is false
    after some operations (ticks, pushes, damage, detonation, timers firing,
    the world changing), it is false after any further operations. *)
Theorem airborne_monotone (before after : list (Op num)) s :
  airborne (self (run before s)) = false ->
  airborne (self (run (before ++ after) s)) = false.
Proof.
  unfold run. rewrite fold_left_app.
  generalize (fold_left exec before s). clear s before.
  induction after as [|op after IH]; intros s Ha; [done|].
  cbn. apply IH. by apply exec_airborne.
Qed.

Lemma detonation_dead s : dead (self s) = true -> detonation s = s.
Proof. intros Hd. unfold detonation. by rewrite Hd. Qed.

Lemma detonation_invariant s :
  exploded_at_most_once s -> exploded_at_most_once (detonation s).
Proof.
  intros [Hle Hdead]. unfold detonation.
  destruct (dead (self s)) eqn:Hd; [done|].
  assert (explosions (trace s) = 0) as H0.
  { destruct (explosions (trace s)) as [|[|n]]; [done| |lia].
    specialize (Hdead eq_refl). congruence. }
  cbn. destruct (explosion _); unfold exploded_at_most_once; cbn;
    rewrite H0; split; (lia || done).
Qed.

Lemma exec_invariant s (op : Op num) :
  exploded_at_most_once s -> exploded_at_most_once (exec s op).
Proof.
  intros [Hle Hdead]. destruct op as [game|angle speed|amount|delay| |w]; cbn.
  - split; rewrite update_explosions, ?update_dead; done.
  - done.
  - unfold damage. destruct (health (self s)) as [h|]; [|done].
    destruct (negb (truthy h)); [done|].
    by destruct (leb _ _).
  - done.
  - unfold timeout. destruct (timers s) as [|t rest]; [done|].
    by apply detonation_invariant.
  - done.
Qed.

Lemma run_invariant (ops : list (Op num)) s :
  exploded_at_most_once s -> exploded_at_most_once (run ops s).
Proof.
  revert s. induction ops as [|op ops IH]; intros s Hs; [done|].
  cbn. apply IH. by apply exec_invariant.
Qed.

(** C9: a detonation timer that fires on a dead projectile does nothing at
    all.  Consequently, for a live projectile whose definition has an
    explosion and that has spawned none yet: whatever is done to it, at most
    one explosion is ever spawned; and when [detonate] is called twice with
    the same delay and both timers fire, exactly one is. *)
Theorem detonation_once s (delay : num) (ex : nat) :
  dead (self s) = false ->
  explosion (definition (self s)) = Some ex ->
  timers s = [] ->
  explosions (trace s) = 0 ->
  (forall s', dead (self s') = true -> detonation s' = s')
  /\ (forall ops, explosions (trace (run ops s)) <= 1)
  /\ let s' := run [OpDetonate delay; OpDetonate delay; OpTimeout; OpTimeout] s in
     explosions (trace s') = 1 /\ dead (self s') = true /\ timers s' = [].
Proof.
  intros Hd Hex Ht H0. split; [apply detonation_dead|]. split.
  - intros ops. apply run_invariant. split; [lia | intros; lia].
  - destruct s as [this w pending tr]. cbn in Hd, Hex, Ht, H0. subst pending.
    cbn. unfold timeout, detonate, detonation. cbn.
    rewrite Hd. cbn. rewrite Hex. cbn. by rewrite H0.
Qed.

End Runs.

(** The grenade hits the ground before the two operations that follow. *)
Lemma airborne_monotone_witness :
  let s : Sim float := flying (vec 0.01 0) in
  let before := [OpUpdate (tick 25 30)] in
  let after := [OpDamage (ofQ 10); OpUpdate (tick 25 55)] in
  airborne (self (run (E := circleWorld []) before s)) = false
  /\ airborne (self (run (E := circleWorld []) (before ++ after) s)) = false.
Proof.
  cbn zeta. split.
  - vm_compute. reflexivity.
  - apply airborne_monotone. vm_compute. reflexivity.
Defined.

(** A live grenade whose definition names explosion 7. *)
Lemma detonation_once_witness :
  let s : Sim float := flying (vec 0.05 0) in
  (forall s' : Sim float, dead (self s') = true -> detonation s' = s')
  /\ (forall ops, explosions (trace (run (E := circleWorld []) ops s)) <= 1)
  /\ let s' :=
       run (E := circleWorld [])
         [OpDetonate (ofQ 4000); OpDetonate (ofQ 4000); OpTimeout; OpTimeout] s in
     explosions (trace s') = 1 /\ dead (self s') = true /\ timers s' = [].
Proof.
  cbn zeta. apply (detonation_once _ _ 7%nat); reflexivity.
Defined.

(** ** Fly-over hysteresis *)

Section CurrentlyAbove.
Context {num : Type} {N : Number num} {E : Externals num}.

Implicit Type s : Sim num.
Implicit Type sc : Scan num.

Variable game : Game num.

Lemma NoDup_ids_eq (l : list GameObject) (a b : GameObject) :
  NoDup (map id l) -> a ∈ l -> b ∈ l -> id a = id b -> a = b.
Proof.
  induction l as [|c l IH]; intros Hnd Ha Hb Hid; [by apply elem_of_nil in Ha|].
  cbn in Hnd. apply NoDup_cons in Hnd as [Hc Hnd].
  apply elem_of_cons in Ha as [->|Ha]; apply elem_of_cons in Hb as [->|Hb].
  - done.
  - exfalso. apply Hc. rewrite Hid. apply list_elem_of_fmap. eauto.
  - exfalso. apply Hc. rewrite <- Hid. apply list_elem_of_fmap. eauto.
  - by apply IH.
Qed.

Lemma fold_scan_member s (l : list GameObject) sc (i : nat) :
  i ∉ map id l ->
  i ∈ currentlyAbove (self (sim (fold_left (scanStep game s) l sc)))
  <-> i ∈ currentlyAbove (self (sim sc)).
Proof.
  revert sc. induction l as [|object l IH]; intros sc Hi; [done|].
  cbn in *. apply not_elem_of_cons in Hi as [Hne Hi].
  rewrite IH by done. by apply scanObject_currentlyAbove_other.
Qed.

Lemma finish_currentlyAbove (damaged : gset nat) s :
  currentlyAbove (self (finish game damaged s)) = currentlyAbove (self s).
Proof. reflexivity. Qed.

Lemma finish_currentDrag (damaged : gset nat) s :
  currentDrag (self (finish game damaged s)) = currentDrag (self s).
Proof. reflexivity. Qed.

(** C2, as the code has it: an obstacle or building that is in
    [currentlyAbove] when a tick starts gets no collision reaction from that
    tick (no damage, no collision response in the loop or in the swept
    correction); if it still overlaps the projectile or is crossed by it when
    its turn comes, it is in [currentlyAbove] when the tick ends, so that the
    exclusion carries over to the next tick; if it passes the filter and no
    longer overlaps, it has left the set when the tick ends.  Its membership
    does not keep the drag down: if it is colliding and cannot be flown over
    at that moment, the drag is [Harsh] when the tick ends. *)
Theorem currentlyAbove_excluded s (object : GameObject)
    (before after : list GameObject) :
  c4 (definition (self s)) = false ->
  candidates game s = before ++ object :: after ->
  NoDup (map id (candidates game s)) ->
  isObstacle object || isBuilding object = true ->
  id object ∈ currentlyAbove (self s) ->
  let sc := scanned game s before in
  let o := world (sim sc) (id object) in
  (exists evs,
      trace (update game s) = evs ++ trace s
      /\ (forall e, e ∈ evs ->
                    e <> HandleCollision (id object)
                    /\ (forall amount source,
                           e <> Damage (id object) amount source)))
  /\ (overlaps (tick_oldPosition s) (self (sim sc)) o = true ->
      id object ∈ currentlyAbove (self (update game s)))
  /\ (ignores (tick_shouldDeal game s) (self (sim sc)) object o = false ->
      overlaps (tick_oldPosition s) (self (sim sc)) o = false ->
      id object ∉ currentlyAbove (self (update game s)))
  /\ (ignores (tick_shouldDeal game s) (self (sim sc)) object o = false ->
      overlaps (tick_oldPosition s) (self (sim sc)) o = true ->
      canFlyOver (tick_squaredVel game s) (self (sim sc)) object o = false ->
      currentDrag (self (update game s)) = Harsh).
Proof.
  intros Hc4 Hcand Hnd Hkind Hin sc o.
  set (i := id object).
  assert (Hbefore : (i ∉ map id before) /\ (i ∉ map id after)).
  { rewrite Hcand, map_app in Hnd. cbn in Hnd.
    apply NoDup_app in Hnd as (_ & Hdisj & Hnd).
    apply NoDup_cons in Hnd as [Hafter _]. split; [|done].
    intros Hb. apply (Hdisj i Hb). by left. }
  destruct Hbefore as [Hbefore Hafter].
  assert (Hsc : i ∈ currentlyAbove (self (sim sc))).
  { unfold sc, scanned. rewrite fold_scan_member by done.
    cbn [sim]. by rewrite prepared_currentlyAbove. }
  assert (Hupd : self (update game s)
                 = self (finish game
                     (damagedThisTick (scanned game s (candidates game s)))
                     (sweep (closestIntersection (scanned game s (candidates game s)))
                        (sim (scanned game s (candidates game s)))))).
  { unfold update. by rewrite Hc4. }
  assert (Hsplit : scanned game s (candidates game s)
                   = fold_left (scanStep game s) after (scanStep game s sc object)).
  { rewrite Hcand, scanned_app. reflexivity. }
  split; [|split; [|split]].
  - pose (P := fun e : Event num =>
                 e <> HandleCollision i
                 /\ forall amount source, e <> Damage i amount source).
    assert (Hg : grows P (trace s) (trace (update game s))).
    { apply (update_grows game s
               (fun sc rest =>
                  (i ∈ currentlyAbove (self (sim sc)) \/ i ∉ map id rest)
                  /\ NoDup (map id rest)
                  /\ (forall o', o' ∈ rest -> id o' = i ->
                                 isObstacle o' || isBuilding o' = true)
                  /\ forall o', closest_object (closestIntersection sc) = Some o' ->
                                id o' <> i) P).
      - by split.
      - by split.
      - cbn [sim closestIntersection]. rewrite prepared_currentlyAbove.
        repeat split; [by left | done | | done].
        intros o' Ho' Hid.
        assert (Hobj : object ∈ candidates game s).
        { rewrite Hcand. apply elem_of_app. right. by left. }
        by rewrite (NoDup_ids_eq (candidates game s) o' object Hnd Ho' Hobj Hid).
      - intros sc0 o0 rest (Hmem & Hnd0 & Hcat & Hclosest).
        cbn in Hnd0. apply NoDup_cons in Hnd0 as [Hfresh Hnd0].
        destruct (decide (id o0 = i)) as [Heq|Hne].
        + assert (Hk : isObstacle o0 || isBuilding o0 = true)
            by (apply Hcat; [by left | done]).
          destruct Hmem as [Hmem|Hmem]; [|exfalso; apply Hmem; cbn; rewrite Heq; by left].
          rewrite <- Heq in Hmem.
          destruct (scanObject_above (tick_oldPosition s) (tick_squaredVel game s)
                      (tick_shouldDeal game s) sc0 o0 Hk Hmem) as [Hcl _].
          split.
          * repeat split; [right; by rewrite <- Heq | done | |].
            -- intros o' Ho'. apply Hcat. by right.
            -- unfold scanStep. by rewrite Hcl.
          * intros [t a src|t|t| | | | | |] He; cbn in He; try done.
            -- destruct He as (_ & [_ Habove] & _). by specialize (Habove Hk).
            -- destruct He as (_ & [_ Habove]). by specialize (Habove Hk).
        + split.
          * repeat split.
            -- destruct Hmem as [Hmem|Hmem].
               ++ left. unfold scanStep.
                  by rewrite scanObject_currentlyAbove_other.
               ++ right. intros Hr. apply Hmem. cbn. by right.
            -- done.
            -- intros o' Ho'. apply Hcat. by right.
            -- intros o' Ho'.
               destruct (scanObject_closest (tick_oldPosition s)
                           (tick_squaredVel game s) (tick_shouldDeal game s)
                           sc0 o0) as [Hcl|[Hcl _]].
               ++ apply Hclosest. unfold scanStep in Ho'. by rewrite Hcl in Ho'.
               ++ unfold scanStep in Ho'. rewrite Hcl in Ho'. by simplify_eq.
          * intros [t a src|t|t| | | | | |] He; cbn in He; try done.
            -- split; [done|]. intros ? ? ?. destruct He as [-> _]. by simplify_eq.
            -- split; [|done]. intros ?. destruct He as [-> _]. by simplify_eq.
      - intros sc0 o' (_ & _ & _ & Hclosest) Ho'. split; [|done].
        intros ?. simplify_eq. by eapply Hclosest. }
    apply grows_app in Hg as (evs & Heq & Hall).
    exists evs. split; [done|]. by apply Forall_forall.
  - intros Hover. rewrite Hupd, finish_currentlyAbove, sweep_currentlyAbove, Hsplit.
    rewrite fold_scan_member by done.
    apply scanObject_persists; [done | by right].
  - intros Hign Hover. rewrite Hupd, finish_currentlyAbove, sweep_currentlyAbove, Hsplit.
    rewrite fold_scan_member by done.
    by apply scanObject_released.
  - intros Hign Hover Hfly.
    rewrite Hupd, finish_currentDrag, Hsplit.
    apply (drag_sticks _ _ (sweep_identity _ _)).
    apply (drag_sticks _ _ (fold_scan_identity game s after _)).
    by apply scanObject_drag.
Qed.

End CurrentlyAbove.

(** The wall is in [currentlyAbove], may never be flown over, and is still
    overlapped: the tick leaves it alone and keeps it in the set. *)
Lemma currentlyAbove_excluded_witness :
  let s : Sim float :=
    mkSim (set_currentlyAbove (grenade (vec 0.05 0)) {[ 1%nat ]})
      (arena (vec 100 100)) [] [] in
  let game : Game float := tick 25 30 in
  (exists evs,
      trace (update (E := circleWorld [wall]) game s) = evs ++ trace s
      /\ (forall e, e ∈ evs ->
                    e <> HandleCollision 1%nat
                    /\ (forall amount source, e <> Damage 1%nat amount source)))
  /\ 1%nat ∈ currentlyAbove (self (update (E := circleWorld [wall]) game s)).
Proof.
  cbn zeta.
  pose proof (currentlyAbove_excluded (num := float)
                (E := circleWorld [wall]) (tick 25 30)
                (mkSim (set_currentlyAbove (grenade (vec 0.05 0)) {[ 1%nat ]})
                   (arena (vec 100 100)) [] [])
                wall [] []) as H.
  destruct H as (Hevs & Hstays & _ & _).
  - reflexivity.
  - reflexivity.
  - cbn. apply NoDup_cons. split; [set_solver | constructor].
  - reflexivity.
  - cbn. set_solver.
  - split; [exact Hevs|]. apply Hstays. vm_compute. reflexivity.
Defined.

(** The same tick raises the drag on account of the wall, the only candidate,
    although the wall is in [currentlyAbove] and still overlapped. *)
Lemma currentlyAbove_drag_counterexample :
  let s : Sim float :=
    mkSim (set_currentlyAbove (grenade (vec 0.05 0)) {[ 1%nat ]})
      (arena (vec 100 100)) [] [] in
  let game : Game float := tick 25 30 in
  let W := circleWorld [wall] in
  1%nat ∈ currentlyAbove (self s)
  /\ candidates (E := W) game s = [wall]
  /\ overlaps (E := W) (tick_oldPosition s) (self (prepared (E := W) game s))
       (world s 1%nat) = true
  /\ airborne (self (update (E := W) game s)) = true
  /\ currentDrag (self s) = Normal
  /\ currentDrag (self (update (E := W) game s)) = Harsh.
Proof.
  cbn zeta. split; [cbn; set_solver|].
  repeat split; vm_compute; reflexivity.
Defined.

(** ** The owner's grace period *)

Section OwnerGrace.
Context {num : Type} {N : Number num} {E : Externals num}.
Local Open Scope num_scope.

Implicit Type s : Sim num.
Implicit Type this : ThrowableProjectile num.

Lemma ignores_owner (should : bool) this (object : GameObject) (o : Obj.state num) :
  collideWithOwner this = false -> isPlayer object = true ->
  id object = id (owner this) ->
  ignores should this object o = true.
Proof.
  intros Hflag Hp Hid. destruct (player_kind object Hp) as [Ho Hb].
  unfold ignores. rewrite Ho, Hb, Hp, Hflag, (bool_decide_eq_true_2 _ Hid).
  cbn. by rewrite !orb_true_r.
Qed.

(** With the flag set, the thrower is filtered like any other player. *)
Lemma owner_like_any_player (should : bool) this (o : Obj.state num) :
  collideWithOwner this = true -> isPlayer (owner this) = true ->
  ignores should this (owner this) o = Obj.dead o || negb should
  /\ bailsEarly this (owner this) o = Obj.dead o.
Proof.
  intros Hflag Hp. destruct (player_kind _ Hp) as [Ho Hb].
  unfold ignores, bailsEarly. rewrite Ho, Hb, Hp, Hflag. cbn.
  by rewrite !orb_false_r.
Qed.

(** A tick that starts with the flag unset does nothing to the thrower. *)
Lemma update_spares_owner (game : Game num) s :
  collideWithOwner (self s) = false ->
  (forall o, o ∈ candidates game s -> id o = id (owner (self s)) ->
             isPlayer o = true) ->
  grows (fun e => target_of e <> Some (id (owner (self s))))
    (trace s) (trace (update game s)).
Proof.
  intros Hflag Hplayer.
  apply (update_grows game s
           (fun sc rest =>
              collideWithOwner (self (sim sc)) = false
              /\ owner (self (sim sc)) = owner (self s)
              /\ (forall o, o ∈ rest -> id o = id (owner (self s)) ->
                            isPlayer o = true)
              /\ forall o', closest_object (closestIntersection sc) = Some o' ->
                            id o' <> id (owner (self s)))).
  - done.
  - done.
  - cbn [sim closestIntersection].
    rewrite (same_collideWithOwner _ _ (prepared_identity game s)).
    rewrite (same_owner _ _ (prepared_identity game s)). done.
  - intros sc o0 rest (Hf & Hown & Hp & Hclosest).
    destruct (decide (id o0 = id (owner (self s)))) as [Heq|Hne].
    + assert (Hign : ignores (tick_shouldDeal game s) (self (sim sc)) o0
                       (world (sim sc) (id o0)) = true).
      { apply ignores_owner; [done | apply Hp; [by left | done] | congruence]. }
      unfold scanStep. rewrite scanObject_ignored by done. split.
      * repeat split; try done. intros o Ho. apply Hp. by right.
      * intros [t a src|t|t| | | | | |] He; cbn in He; try done.
        -- destruct He as (_ & [? _] & _). congruence.
        -- destruct He as (_ & ?). congruence.
        -- destruct He as (_ & [? _]). congruence.
    + pose proof (scanObject_identity (tick_oldPosition s) (tick_squaredVel game s)
                    (tick_shouldDeal game s) sc o0) as Hid.
      split.
      * unfold scanStep. repeat split.
        -- by rewrite (same_collideWithOwner _ _ Hid).
        -- by rewrite (same_owner _ _ Hid).
        -- intros o Ho. apply Hp. by right.
        -- intros o' Ho'.
           destruct (scanObject_closest (tick_oldPosition s)
                       (tick_squaredVel game s) (tick_shouldDeal game s)
                       sc o0) as [Hcl|[Hcl _]].
           ++ apply Hclosest. by rewrite Hcl in Ho'.
           ++ rewrite Hcl in Ho'. by simplify_eq.
      * intros [t a src|t|t| | | | | |] He; cbn in He; try done;
          destruct He as [-> _]; cbn; congruence.
  - intros sc o' (_ & _ & _ & Hclosest) Ho'. cbn.
    intros ?. simplify_eq. by eapply Hclosest.
Qed.

(** What a run does to the flag: only ticks write it, and only upwards. *)
Lemma exec_owner_fields s (op : Op num) :
  spawnTime (self (exec s op)) = spawnTime (self s)
  /\ owner (self (exec s op)) = owner (self s)
  /\ definition (self (exec s op)) = definition (self s)
  /\ collideWithOwner (self (exec s op))
     = collideWithOwner (self s)
       || match op with
          | OpUpdate game =>
              negb (c4 (definition (self s)))
              && (now game - spawnTime (self s) >=? ofQ 250)
          | _ => false
          end.
Proof.
  destruct op as [game|angle speed|amount|delay| |w]; cbn.
  - destruct (c4 (definition (self s))) eqn:Hc4.
    + unfold update. rewrite Hc4. cbn. by rewrite orb_false_r.
    + destruct (update_identity game s Hc4)
        as (_ & _ & _ & Hsp & _ & Hdef & Hown & _ & _ & Hflag & _).
      by rewrite Hsp, Hdef, Hown, Hflag.
  - by rewrite orb_false_r.
  - unfold damage. destruct (health (self s)) as [h|]; [|by rewrite orb_false_r].
    destruct (negb (truthy h)); [by rewrite orb_false_r|].
    destruct (leb _ _); cbn; by rewrite orb_false_r.
  - by rewrite orb_false_r.
  - unfold timeout. destruct (timers s) as [|t rest]; [by rewrite orb_false_r|].
    unfold detonation. cbn. destruct (dead (self s)); [by rewrite orb_false_r|].
    cbn. destruct (explosion _); by rewrite orb_false_r.
  - by rewrite orb_false_r.
Qed.

Lemma run_flag_stays (ops : list (Op num)) s :
  collideWithOwner (self s) = true -> collideWithOwner (self (run ops s)) = true.
Proof.
  revert s. induction ops as [|op ops IH]; intros s Hs; [done|].
  cbn. apply IH. destruct (exec_owner_fields s op) as (_ & _ & _ & ->).
  by rewrite Hs.
Qed.

Lemma run_before_threshold (ops : list (Op num)) s :
  collideWithOwner (self s) = false ->
  Forall (fun op => forall game, op = OpUpdate game ->
                      (now game - spawnTime (self s) >=? ofQ 250) = false) ops ->
  collideWithOwner (self (run ops s)) = false
  /\ spawnTime (self (run ops s)) = spawnTime (self s)
  /\ owner (self (run ops s)) = owner (self s)
  /\ definition (self (run ops s)) = definition (self s).
Proof.
  revert s. induction ops as [|op ops IH]; intros s Hs Hall; [done|].
  apply Forall_cons in Hall as [Hop Hall].
  destruct (exec_owner_fields s op) as (Hsp & Hown & Hdef & Hflag).
  change (run (op :: ops) s) with (run ops (exec s op)).
  destruct (IH (exec s op)) as (H1 & H2 & H3 & H4).
  - rewrite Hflag, Hs. cbn. destruct op; try done.
    rewrite (Hop _ eq_refl). by rewrite andb_false_r.
  - by rewrite Hsp.
  - by rewrite H1, H2, H3, H4, Hsp, Hown, Hdef.
Qed.

(** C3, as the code has it.  The grace flag is written once, in the last lines
    of [update].  Hence a tick all of whose predecessors ran with
    [now - spawnTime < 250] - every tick before the threshold and also the
    first tick at or after it - emits nothing that targets the thrower: no
    damage and no collision response.  At the end of that tick the flag is set
    exactly if [now - spawnTime >= 250] (and the projectile is not a C4), and
    once set it stays set whatever happens; from then on a live thrower is
    filtered like any other player. *)
Theorem owner_grace (ops : list (Op num)) (game : Game num) (s0 : Sim num) :
  (forall w h l o, o ∈ grid_intersectsHitbox w h l ->
                   id o = id (owner (self s0)) -> isPlayer o = true) ->
  collideWithOwner (self s0) = false ->
  Forall (fun op => forall game, op = OpUpdate game ->
                      (now game - spawnTime (self s0) >=? ofQ 250) = false) ops ->
  let s := run ops s0 in
  (exists evs,
      trace (update game s) = evs ++ trace s
      /\ (forall e, e ∈ evs -> target_of e <> Some (id (owner (self s0)))))
  /\ collideWithOwner (self (update game s))
     = negb (c4 (definition (self s0)))
       && (now game - spawnTime (self s0) >=? ofQ 250)
  /\ (forall later,
         collideWithOwner (self (update game s)) = true ->
         collideWithOwner (self (run later (update game s))) = true)
  /\ (forall this should o,
         collideWithOwner this = true -> isPlayer (owner this) = true ->
         ignores should this (owner this) o = Obj.dead o || negb should
         /\ bailsEarly this (owner this) o = Obj.dead o).
Proof.
  intros Hgrid Hflag Hall s.
  destruct (run_before_threshold ops s0 Hflag Hall) as (Hf & Hsp & Hown & Hdef).
  fold s in Hf, Hsp, Hown, Hdef.
  split; [|split; [|split]].
  - assert (Hg := update_spares_owner game s Hf).
    rewrite Hown in Hg.
    apply grows_app in Hg as (evs & Heq & Hevs).
    + exists evs. split; [done|]. by apply Forall_forall.
    + intros o Ho. apply (Hgrid _ _ _ _ Ho).
  - destruct (exec_owner_fields s (OpUpdate game)) as (_ & _ & _ & Hu).
    cbn in Hu. by rewrite Hu, Hf, Hsp, Hdef.
  - intros later. apply run_flag_stays.
  - intros this should o. apply owner_like_any_player.
Qed.

End OwnerGrace.

(** The thrower stands on the grenade.  After one tick at 30 ms, the tick at
    250 ms still spares the thrower, and sets the flag. *)
Lemma owner_grace_witness :
  let W : Externals float := circleWorld [thrower; wall] in
  let s0 : Sim float := mkSim (grenade (vec 0.05 0)) (arena (vec 500 500)) [] [] in
  let s := run (E := W) [OpUpdate (tick 25 30)] s0 in
  (exists evs,
      trace (update (E := W) (tick 25 250) s) = evs ++ trace s
      /\ (forall e, e ∈ evs -> target_of e <> Some 0%nat))
  /\ collideWithOwner (self (update (E := W) (tick 25 250) s)) = true.
Proof.
  cbn zeta.
  pose proof (owner_grace (num := float) (E := circleWorld [thrower; wall])
                [OpUpdate (tick 25 30)] (tick 25 250)
                (mkSim (grenade (vec 0.05 0)) (arena (vec 500 500)) [] [])) as H.
  destruct H as (Hevs & Hflag & _).
  - intros w h l o Ho Hid. cbn in Ho.
    apply elem_of_cons in Ho as [->|Ho]; [reflexivity|].
    apply elem_of_cons in Ho as [->|Ho]; [discriminate Hid|].
    by apply elem_of_nil in Ho.
  - reflexivity.
  - constructor; [|constructor]. intros game [= <-]. vm_compute. reflexivity.
  - split; [exact Hevs|]. rewrite Hflag. vm_compute. reflexivity.
Defined.

(** A tick executed at the threshold ([now - spawnTime = 250]) with the
    thrower standing on the grenade, impact damage active: the thrower is
    neither damaged nor reflected off; only the tick after it hits the
    thrower. *)
Lemma owner_grace_counterexample :
  let W : Externals float := circleWorld [thrower] in
  let s : Sim float := mkSim (grenade (vec 0.035 0)) (arena (vec 500 500)) [] [] in
  let game : Game float := tick 25 250 in
  (now game - spawnTime (self s) >=? ofQ 250)%num = true
  /\ tick_shouldDeal (E := W) game s = true
  /\ overlaps (E := W) (tick_oldPosition s) (self (prepared (E := W) game s))
       (world s 0%nat) = true
  /\ trace (update (E := W) game s) = [SetPartialDirty; UpdateObject]
  /\ trace (update (E := W) (tick 25 275) (update (E := W) game s))
     = [SetPartialDirty; UpdateObject; HandleCollision 0%nat;
        Damage 0%nat (ofQ 1) 0%nat; SetPartialDirty; UpdateObject].
Proof.
  cbn zeta. repeat split; vm_compute; reflexivity.
Defined.

(** ** Compound shapes *)

Section Groups.
Context {num : Type} {N : Number num} {E : Externals num}.

Lemma resolveMembers_app (selfRadius : num) (l1 l2 : list (Hitbox num))
    (collision : CollisionResponse num) (pos : Vector num) :
  resolveMembers selfRadius (l1 ++ l2) collision pos
  = resolveMembers selfRadius l2
      (resolveMembers selfRadius l1 collision pos).1
      (resolveMembers selfRadius l1 collision pos).2.
Proof.
  revert collision pos. induction l1 as [|h l1 IH]; intros collision pos; [done|].
  cbn. destruct (collidesWith h _); [|apply IH].
  destruct (resolve selfRadius h pos). apply IH.
Qed.

Lemma resolveMembers_clear (selfRadius : num) (l : list (Hitbox num))
    (collision : CollisionResponse num) (pos : Vector num) :
  Forall (fun h => collidesWith h (CircleHitbox pos selfRadius) = false) l ->
  resolveMembers selfRadius l collision pos = (collision, pos).
Proof.
  induction 1 as [|h l Hh _ IH]; [done|]. cbn. by rewrite Hh.
Qed.

(** C5, as the code has it.  The members of a group are visited in order, each
    tested against the projectile where the members before it have left it.
    The response the group returns - the one used for the velocity reflection
    - is the response that the recursive call returned for the last member
    that collided when visited. *)
Theorem group_keeps_last_colliding (selfRadius : num)
    (before after : list (Hitbox num)) (target : Hitbox num) (pos : Vector num) :
  let earlier := resolveMembers selfRadius before None pos in
  let last := resolve selfRadius target earlier.2 in
  collidesWith target (CircleHitbox earlier.2 selfRadius) = true ->
  Forall (fun h => collidesWith h (CircleHitbox last.2 selfRadius) = false) after ->
  (resolve selfRadius (GroupHitbox (before ++ target :: after)) pos).1 = last.1.
Proof.
  intros earlier last Hhit Hclear.
  rewrite resolve_group, resolveMembers_app. fold earlier.
  cbn [resolveMembers]. rewrite Hhit. fold last.
  destruct last as [c p] eqn:Hlast. cbn [fst snd] in *.
  by rewrite resolveMembers_clear.
Qed.

End Groups.

(** Two circles of radius 1, right of and above the grenade. *)
Lemma group_keeps_last_colliding_witness :
  let W : Externals float := circleWorld [] in
  let right := CircleHitbox (vec 501.5 500) (ofQ 1) in
  let above := CircleHitbox (vec 500 501.5) (ofQ 1) in
  let earlier := resolveMembers (E := W) (ofQ 1) [right] None (vec 500 500) in
  let last := resolve (E := W) (ofQ 1) above earlier.2 in
  earlier.2 = vec 499.5 500
  /\ collidesWith (Externals := W) above (CircleHitbox earlier.2 (ofQ 1)) = true
  /\ (resolve (E := W) (ofQ 1) (GroupHitbox ([right] ++ above :: [])) (vec 500 500)).1
     = last.1.
Proof.
  cbn zeta. split; [vm_compute; reflexivity|].
  split; [vm_compute; reflexivity|].
  apply (group_keeps_last_colliding (E := circleWorld []) (ofQ 1)
           [CircleHitbox (vec 501.5 500) (ofQ 1)] []
           (CircleHitbox (vec 500 501.5) (ofQ 1)) (vec 500 500)).
  - vm_compute. reflexivity.
  - constructor.
Defined.

(** In the group [right; above] the last member to report a resolution is
    [above].  Yet the response of the group is not the one [above] reports by
    itself, nor the one the group reports without [right]: [right] has moved
    the projectile, and with it the normal that [above] reports. *)
Lemma group_members_contribute_counterexample :
  let W : Externals float := circleWorld [] in
  let right := CircleHitbox (vec 501.5 500) (ofQ 1) in
  let above := CircleHitbox (vec 500 501.5) (ofQ 1) in
  let both := resolve (E := W) (ofQ 1) (GroupHitbox [right; above]) (vec 500 500) in
  let without := resolve (E := W) (ofQ 1) (GroupHitbox [above]) (vec 500 500) in
  let alone := resolve (E := W) (ofQ 1) above (vec 500 500) in
  option_map dir alone.1 = Some (vec 0 (-1))
  /\ without.1 = alone.1
  /\ option_map dir both.1
     = Some (Vec.create (-0.31622776601683794)%float (-0.94868329805051377)%float)
  /\ both.1 <> without.1.
Proof.
  cbn zeta. repeat split; try (vm_compute; reflexivity).
  vm_compute. discriminate.
Defined.

(** ** The reflection of the velocity *)

(** *** binary64: NaN is absorbing, and only the two zeros equal zero *)

Section Binary64.
Local Open Scope float_scope.

Lemma mul_nan_l (a : float) : nan * a = nan.
Proof. apply Prim2SF_inj. by rewrite mul_spec. Qed.

Lemma mul_nan_r (a : float) : a * nan = nan.
Proof.
  apply Prim2SF_inj. rewrite mul_spec.
  by destruct (Prim2SF a).
Qed.

Lemma add_nan_l (a : float) : nan + a = nan.
Proof. apply Prim2SF_inj. by rewrite add_spec. Qed.

Lemma add_nan_r (a : float) : a + nan = nan.
Proof.
  apply Prim2SF_inj. rewrite add_spec.
  by destruct (Prim2SF a).
Qed.

Lemma eqb_zero (a : float) : (a =? 0) = true -> a = 0 \/ a = -0.
Proof.
  rewrite FloatAxioms.eqb_spec. intros H.
  rewrite <- (SF2Prim_Prim2SF a).
  destruct (Prim2SF a) as [[|]|[|]| |[|] m e]; try discriminate H.
  - by right.
  - by left.
Qed.

End Binary64.

Section Reflection.
Context {E : Externals float}.

(** At rest the divisor [len] is zero, [1 / len] is infinite, and every
    component of the reflected velocity is NaN, whatever the normal. *)
Lemma reflect_at_rest (v n : Vector float) :
  PrimFloat.eqb (Vec.x v) 0 = true -> PrimFloat.eqb (Vec.y v) 0 = true ->
  Vec.length v = 0%float
  /\ (ofQ 1 / Vec.length v)%num = infinity
  /\ reflect v n = Vec.create nan nan.
Proof.
  intros Hx Hy. destruct v as [vx vy], n as [nx ny]. cbn in Hx, Hy.
  assert (Hdot : forall a b : float, (nan * a + nan * b)%float = nan).
  { intros a b. by rewrite !mul_nan_l, add_nan_l. }
  assert (Hnew : forall a : float, ((a * (nan * -2) + nan) * (0 * 0.4))%float = nan).
  { intros a. by rewrite add_nan_r, mul_nan_l. }
  destruct (eqb_zero vx Hx) as [->| ->], (eqb_zero vy Hy) as [->| ->].
  all: repeat split; try (vm_compute; reflexivity).
  all: unfold reflect, Vec.length, Vec.squaredLength, Vec.scale, Vec.dotProduct,
         Vec.add; cbn -[PrimFloat.mul PrimFloat.add PrimFloat.div PrimFloat.sqrt].
  all: repeat match goal with
         | |- context [PrimFloat.sqrt ?a] =>
             let r := eval vm_compute in (PrimFloat.sqrt a) in
             change (PrimFloat.sqrt a) with r
         | |- context [PrimFloat.div ?a ?b] =>
             let r := eval vm_compute in (PrimFloat.div a b) in
             change (PrimFloat.div a b) with r
         end.
  all: repeat match goal with
         | |- context [PrimFloat.mul ?a infinity] =>
             let r := eval vm_compute in (PrimFloat.mul a infinity) in
             change (PrimFloat.mul a infinity) with r
         end.
  all: by rewrite !Hdot, !Hnew.
Qed.

(** C10: the reflection divides by the length of the velocity without a guard.
    Whenever [handleCollision] finds a penetration resolution while the
    velocity is the zero vector, that length is zero, the division is by zero,
    and both components of the new velocity are NaN. *)
Theorem zero_velocity_becomes_nan (object : GameObject) (s : Sim float)
    (hitbox : Hitbox float) (c : Collision float) :
  PrimFloat.eqb (Vec.x (velocity (self s))) 0 = true ->
  PrimFloat.eqb (Vec.y (velocity (self s))) 0 = true ->
  bailsEarly (self s) object (world s (id object)) = false ->
  Obj.hitbox (world s (id object)) = Some hitbox ->
  collidesWith hitbox (this_hitbox (self s)) = true ->
  equalLayer (layer (self s)) (Obj.layer (world s (id object))) = true ->
  (resolve (radius (self s)) hitbox (position (self s))).1 = Some c ->
  Vec.length (velocity (self s)) = 0%float
  /\ (ofQ 1 / Vec.length (velocity (self s)))%num = infinity
  /\ velocity (self (handleCollision object s)) = Vec.create nan nan
  /\ is_nan (Vec.x (velocity (self (handleCollision object s)))) = true
  /\ is_nan (Vec.y (velocity (self (handleCollision object s)))) = true.
Proof.
  intros Hx Hy Hbail Hbox Hhit Hlayer Hres.
  destruct (reflect_at_rest (velocity (self s)) (dir c) Hx Hy) as (Hlen & Hinv & Hnan).
  assert (Hv : velocity (self (handleCollision object s)) = Vec.create nan nan).
  { unfold handleCollision. cbn [emit self world].
    rewrite Hbail, Hbox, Hhit, Hlayer. cbn [negb orb].
    destruct (resolve _ _ _) as [c' pos]. cbn in Hres. subst c'.
    cbn. exact Hnan. }
  by rewrite Hv.
Qed.

End Reflection.

(** The grenade at rest, overlapping the wall. *)
Lemma zero_velocity_becomes_nan_witness :
  let W : Externals float := circleWorld [wall] in
  let s : Sim float := flying (vec 0 0) in
  Vec.length (velocity (self s)) = 0%float
  /\ velocity (self (handleCollision (E := W) wall s)) = Vec.create nan nan.
Proof.
  cbn zeta.
  pose proof (zero_velocity_becomes_nan (E := circleWorld [wall]) wall
                (flying (vec 0 0))
                (CircleHitbox (vec 501.5 500) (ofQ 1))
                (mkCollision (vec (-1) 0) (ofQ 0.5))) as H.
  destruct H as (Hlen & _ & Hv & _); try (vm_compute; reflexivity).
  by split.
Defined.

(** C1 at its failing input: a grenade is created overlapping the wall.  The
    constructor runs the collision response while the velocity is still
    (0, 0); the law asks for (0, 0) again, the code stores (NaN, NaN). *)
Theorem reflection_law_fails_at_rest :
  let W : Externals float := circleWorld [wall] in
  let created : Sim float :=
    construct (E := W) (ofQ 0) (arena (vec 100 100)) (vec 500 500) 0%Z frag
      thrower (ofQ 1) in
  trace created = [HandleCollision 1%nat]
  /\ (resolve (E := W) (ofQ 1) (CircleHitbox (vec 501.5 500) (ofQ 1))
        (vec 500 500)).1
     = Some (mkCollision (vec (-1) 0) (ofQ 0.5))
  /\ reflection_law (vec 0 0) (vec (-1) 0) = (vec 0 0 : Vector float)
  /\ velocity (self created) = Vec.create nan nan.
Proof.
  cbn zeta. repeat split; vm_compute; reflexivity.
Qed.

(** ** Ticks without a collision *)

Section Quiet.
Context {num : Type} {N : Number num} {E : Externals num}.
Local Open Scope num_scope.

Implicit Type s : Sim num.
Implicit Type this : ThrowableProjectile num.

Variable game : Game num.

Lemma classify_kinematics this :
  position (classify this) = position this
  /\ velocity (classify this) = velocity this
  /\ rotation (classify this) = rotation this
  /\ radius (classify this) = radius this.
Proof.
  unfold classify. destruct (negb _); [|done].
  by destruct (floor_overlay _ _).
Qed.

Lemma quiet_scan s (l : list GameObject) :
  (forall o, o ∈ l ->
     ignores (tick_shouldDeal game s) (self (prepared game s)) o (world s (id o)) = true
     \/ overlaps (tick_oldPosition s) (self (prepared game s)) (world s (id o)) = false) ->
  exists above,
    scanned game s l
    = mkScan (set_self (prepared game s)
                (set_currentlyAbove (self (prepared game s)) above))
        ∅ initialClosest.
Proof.
  induction l as [|o l IH] using rev_ind; intros Hq.
  - exists (currentlyAbove (self (prepared game s))). unfold scanned. cbn [fold_left].
    f_equal. destruct (prepared game s) as [[] ? ? ?]. reflexivity.
  - destruct IH as [above IH].
    { intros o' Ho'. apply Hq. apply elem_of_app. by left. }
    rewrite scanned_snoc, IH. unfold scanStep.
    destruct (scanObject_quiet (tick_oldPosition s) (tick_squaredVel game s)
                (tick_shouldDeal game s)
                (mkScan (set_self (prepared game s)
                           (set_currentlyAbove (self (prepared game s)) above))
                   ∅ initialClosest) o) as [above' ->].
    + apply (Hq o). apply elem_of_app. right. by left.
    + by exists above'.
Qed.

(** Without a collision the tick is the integration followed by the clamp. *)
Lemma quiet_update s :
  c4 (definition (self s)) = false ->
  no_collision game s ->
  let moved := integrate game (self s) in
  velocity (self (update game s)) = velocity moved
  /\ rotation (self (update game s)) = rotation moved
  /\ position (self (update game s))
     = Vec.create
         (Numeric.clamp (Vec.x (position moved)) (radius (self s))
            (map_width game - radius (self s)))
         (Numeric.clamp (Vec.y (position moved)) (radius (self s))
            (map_height game - radius (self s))).
Proof.
  intros Hc4 Hq. cbn zeta. unfold update. rewrite Hc4.
  destruct (quiet_scan s (candidates game s) Hq) as [above ->].
  destruct (classify_kinematics (integrate game (self s))) as (Hp & Hv & Hr & Hrad).
  unfold sweep, finish, prepared. cbn.
  by rewrite Hp, Hv, Hr, Hrad.
Qed.

End Quiet.

(** ** Exact arithmetic: the laws behind the floating-point program *)

Section Exact.
Context {E : Externals R}.
Local Open Scope R_scope.

Implicit Type s : Sim R.

Lemma Rltb_true (a b : R) : Rltb a b = true <-> a < b.
Proof. unfold Rltb. destruct (Rlt_dec a b); split; (done || lra). Qed.

Lemma Rltb_false (a b : R) : Rltb a b = false <-> b <= a.
Proof. unfold Rltb. destruct (Rlt_dec a b); split; (done || lra). Qed.

Lemma dragValue_pos (d : Drag) : 0 < dragValue d.
Proof. destruct d; unfold dragValue; cbn; unfold Q2R; cbn; lra. Qed.

Lemma nonzero_squaredLength (v : Vector R) :
  v <> Vec.create 0 0 -> 0 < Vec.squaredLength v.
Proof.
  destruct v as [vx vy]. intros Hv. unfold Vec.squaredLength. cbn.
  destruct (Req_dec_T vx 0) as [->|Hx]; [|nra].
  destruct (Req_dec_T vy 0) as [->|Hy]; [done|nra].
Qed.

(** Where the velocity is not zero, the code computes the reflection law
    [v' = (v - 2(v.n)n) * 0.4] (for any [n], unit or not). *)
Lemma reflect_satisfies_law (v n : Vector R) :
  v <> Vec.create 0 0 -> reflect v n = reflection_law v n.
Proof.
  intros Hv. pose proof (nonzero_squaredLength v Hv) as Hpos.
  assert (Hlen : R_sqrt.sqrt (Vec.squaredLength v) <> 0).
  { intros H0. apply sqrt_eq_0 in H0; lra. }
  destruct v as [vx vy], n as [nx ny].
  unfold reflect, reflection_law, Vec.length, Vec.scale, Vec.add, Vec.dotProduct.
  cbn in *. unfold Q2R. cbn.
  set (len := R_sqrt.sqrt _) in *.
  f_equal; field; done.
Qed.

(** C7, as the code has it: in a tick of a projectile that is not a C4, with
    [dt > 0] and without a collision, the squared length of the velocity
    decreases strictly - provided the velocity is not the zero vector (at rest
    it stays zero).  The drag coefficient is 0.001 or 0.005, hence positive. *)
Theorem drag_slows_down (game : Game R) s :
  c4 (definition (self s)) = false ->
  0 < dt game ->
  velocity (self s) <> Vec.create 0 0 ->
  no_collision game s ->
  Vec.squaredLength (velocity (self (update game s)))
  < Vec.squaredLength (velocity (self s)).
Proof.
  intros Hc4 Hdt Hv Hq.
  destruct (quiet_update game s Hc4 Hq) as (-> & _ & _).
  pose proof (nonzero_squaredLength _ Hv) as Hpos.
  pose proof (dragValue_pos (currentDrag (self s))) as Hd.
  unfold integrate. cbn. unfold Vec.squaredLength, Vec.scale in *. cbn in *.
  set (k := Q2R 1 / (Q2R 1 + dt game * dragValue (currentDrag (self s)))).
  assert (Hk : 0 < k < 1).
  { unfold k, Q2R. cbn.
    assert (0 < dt game * dragValue (currentDrag (self s))) by nra.
    assert (Hpos' : 0 < 1 / (1 + dt game * dragValue (currentDrag (self s))))
      by (apply Rdiv_lt_0_compat; lra).
    assert (Hone : 1 / (1 + dt game * dragValue (currentDrag (self s)))
                   * (1 + dt game * dragValue (currentDrag (self s))) = 1)
      by (field; lra).
    replace (1 * / 1) with 1 by lra.
    split; [done | nra]. }
  destruct (velocity (self s)) as [vx vy]. cbn in *. clearbody k.
  assert (Hkk : k * k < 1) by nra.
  replace (vx * k * (vx * k) + vy * k * (vy * k))
    with ((vx * vx + vy * vy) * (k * k)) by ring.
  nra.
Qed.



End Exact.

(** A grenade flying over empty ground, in exact arithmetic. *)
Lemma drag_slows_down_witness :
  let s : Sim R := flying (vec 0.05 0) in
  (Vec.squaredLength (velocity (self (update (E := circleWorld []) (tick 25 30) s)))
   < Vec.squaredLength (velocity (self s)))%R.
Proof.
  cbn zeta. apply (drag_slows_down (E := circleWorld [])).
  - reflexivity.
  - cbn. unfold Q2R. cbn. lra.
  - cbn. intros [= H _]. unfold Q2R in H. cbn in H. lra.
  - intros o Ho. by apply elem_of_nil in Ho.
Defined.

(** A grenade at rest on empty ground: [dt > 0], the drag is positive, nothing
    is near, and the squared speed is 0 before and after the tick.  (In
    binary64 a moving grenade does not slow down either when [dt] is as small
    as 1e-17: [1 + dt * drag] rounds to 1.) *)
Lemma drag_at_rest_counterexample :
  let W : Externals float := circleWorld [] in
  let s : Sim float := flying (vec 0 0) in
  let game : Game float := tick 25 30 in
  let moving : Sim float := flying (vec 0.05 0) in
  let instant : Game float := tick (1 # 100000000000000000) 30 in
  ((ofQ 0 <? dt game)%num = true
   /\ (ofQ 0 <? dragValue (num := float) (currentDrag (self s)))%num = true
   /\ candidates (E := W) game s = []
   /\ Vec.squaredLength (velocity (self s)) = 0%float
   /\ Vec.squaredLength (velocity (self (update (E := W) game s))) = 0%float
   /\ (Vec.squaredLength (velocity (self (update (E := W) game s)))
       <? Vec.squaredLength (velocity (self s)))%num = false)
  /\ ((ofQ 0 <? dt instant)%num = true
      /\ (Vec.squaredLength (velocity (self (update (E := W) instant moving)))
          <? Vec.squaredLength (velocity (self moving)))%num = false).
Proof.
  cbn zeta. repeat split; vm_compute; reflexivity.
Defined.

(** * Further properties of the projectile *)

(** ** More on a whole tick *)

Section TickMore.
Context {num : Type} {N : Number num} {E : Externals num}.
Local Open Scope num_scope.

Implicit Type s : Sim num.
Implicit Type this : ThrowableProjectile num.
Implicit Type sc : Scan num.

Variable game : Game num.

Lemma update_unfold s :
  c4 (definition (self s)) = false ->
  update game s
  = finish game (damagedThisTick (scanned game s (candidates game s)))
      (sweep (closestIntersection (scanned game s (candidates game s)))
         (sim (scanned game s (candidates game s)))).
Proof. intros Hc4. unfold update. by rewrite Hc4. Qed.

Lemma fold_scan_flags s (l : list GameObject) sc :
  airborne (self (sim (fold_left (scanStep game s) l sc))) = airborne (self (sim sc))
  /\ rotation (self (sim (fold_left (scanStep game s) l sc))) = rotation (self (sim sc)).
Proof.
  revert sc. induction l as [|object l IH]; intros sc; [done|]. cbn.
  destruct (IH (scanStep game s sc object)) as [-> ->].
  apply scanObject_flags.
Qed.

Lemma sweep_flags (closest : Closest num) s :
  airborne (self (sweep closest s)) = airborne (self s)
  /\ rotation (self (sweep closest s)) = rotation (self s)
  /\ angularVelocity (self (sweep closest s)) = angularVelocity (self s)
  /\ world (sweep closest s) = world s.
Proof.
  unfold sweep. destruct (intersected closest); [|done].
  destruct (closest_object closest) as [object|]; [|done].
  by destruct (handleCollision_writes object
                 (set_self s
                    (set_position (self s)
                       (Vec.add (Vec.scale (closest_normal closest) (radius (self s)))
                          (position (self s)))))) as (? & ? & ->).
Qed.

Lemma classify_airborne this :
  airborne (classify this)
  = airborne this && (Vec.squaredLength (velocity this) >=? impactDamage_threshold).
Proof.
  unfold classify. destruct (leb _ _); cbn.
  - by rewrite andb_true_r.
  - rewrite andb_false_r. by destruct (floor_overlay _ _).
Qed.

(** X1: after a tick of a projectile that is not a C4, the airborne flag is
    set exactly if it was set before and the squared speed, measured after the
    drag of this tick and before any collision response, has not fallen below
    the impact threshold 0.0009. *)
Theorem airborne_after_tick s :
  c4 (definition (self s)) = false ->
  airborne (self (update game s))
  = airborne (self s) && (tick_squaredVel game s >=? impactDamage_threshold).
Proof.
  intros Hc4. rewrite (update_unfold s Hc4). cbn [finish emit self set_self airborne].
  change (airborne (self (sweep (closestIntersection (scanned game s (candidates game s)))
                            (sim (scanned game s (candidates game s)))))
          = airborne (self s) && (tick_squaredVel game s >=? impactDamage_threshold)).
  destruct (sweep_flags (closestIntersection (scanned game s (candidates game s)))
              (sim (scanned game s (candidates game s)))) as (-> & _).
  unfold scanned.
  destruct (fold_scan_flags s (candidates game s)
              (mkScan (prepared game s) ∅ initialClosest)) as (-> & _).
  cbn [sim prepared self set_self]. by rewrite classify_airborne.
Qed.

(** X2: whatever the projectile hits during a tick, its rotation advances by
    the angular velocity it had when the tick started, times [dt], and is
    normalized; collisions only slow the spin of later ticks. *)
Theorem rotation_after_tick s :
  c4 (definition (self s)) = false ->
  rotation (self (update game s))
  = Angle_normalize (rotation (self s) + angularVelocity (self s) * dt game).
Proof.
  intros Hc4. rewrite (update_unfold s Hc4).
  change (rotation (self (sweep (closestIntersection (scanned game s (candidates game s)))
                            (sim (scanned game s (candidates game s)))))
          = Angle_normalize (rotation (self s) + angularVelocity (self s) * dt game)).
  destruct (sweep_flags (closestIntersection (scanned game s (candidates game s)))
              (sim (scanned game s (candidates game s)))) as (_ & -> & _).
  unfold scanned.
  destruct (fold_scan_flags s (candidates game s)
              (mkScan (prepared game s) ∅ initialClosest)) as (_ & ->).
  cbn [sim prepared self set_self].
  destruct (classify_kinematics (integrate game (self s))) as (_ & _ & -> & _).
  reflexivity.
Qed.

(** The events of a tick, from an invariant of its loop and what each
    iteration adds. *)
Lemma update_grows_steps s (Inv : Scan num -> list GameObject -> Prop)
    (P : Event num -> Prop) :
  P UpdateObject -> P SetPartialDirty ->
  Inv (mkScan (prepared game s) ∅ initialClosest) (candidates game s) ->
  (forall sc object rest,
      Inv sc (object :: rest) ->
      Inv (scanStep game s sc object) rest
      /\ grows P (trace (sim sc)) (trace (sim (scanStep game s sc object)))) ->
  (forall sc object,
      Inv sc [] -> closest_object (closestIntersection sc) = Some object ->
      P (HandleCollision (id object))) ->
  grows P (trace s) (trace (update game s))
  /\ (c4 (definition (self s)) = false ->
      Inv (scanned game s (candidates game s)) []).
Proof.
  intros HU HD H0 Hstep Hsweep.
  assert (Hfold : forall (l : list GameObject) sc,
             Inv sc l ->
             grows P (trace (sim sc)) (trace (sim (fold_left (scanStep game s) l sc)))
             /\ Inv (fold_left (scanStep game s) l sc) []).
  { induction l as [|object l IH]; intros sc HInv; cbn.
    - split; [constructor | done].
    - destruct (Hstep sc object l HInv) as [HInv' Hg].
      destruct (IH _ HInv') as [Hg' Hend]. split; [|done].
      by eapply grows_trans. }
  destruct (Hfold _ _ H0) as [Hg Hend].
  split; [|by intros _].
  unfold update. destruct (c4 _); [constructor|].
  cbn [finish emit trace]. do 2 (constructor; [done|]). cbn.
  eapply grows_trans; [exact Hg|].
  apply sweep_grows. intros object Hobj. by eapply Hsweep.
Qed.

Lemma fold_scan_world_harmless s (l : list GameObject) sc :
  tick_shouldDeal game s = false ->
  world (sim (fold_left (scanStep game s) l sc)) = world (sim sc).
Proof.
  intros Hno. revert sc. induction l as [|object l IH]; intros sc; [done|].
  cbn. rewrite IH. by apply scanObject_world_harmless.
Qed.

Lemma ignores_player_harmless this (object : GameObject) (o : Obj.state num) :
  isPlayer object = true -> ignores false this object o = true.
Proof.
  intros Hp. destruct (player_kind object Hp) as [Ho Hb].
  unfold ignores. rewrite Ho, Hb, Hp. cbn. by rewrite orb_true_r.
Qed.

(** X3: a tick in which impact damage is off - the definition has no
    [impactDamage], or the squared speed after the drag is below 0.0009 -
    damages nothing, leaves every other object as it was, and does not touch
    players at all: no event of the tick targets an object that the grid
    reports as a player. *)
Theorem harmless_below_threshold s :
  tick_shouldDeal game s = false ->
  world (update game s) = world s
  /\ exists evs,
      trace (update game s) = evs ++ trace s
      /\ (forall e, e ∈ evs ->
            (forall target amount source, e <> Damage target amount source)
            /\ (forall i,
                   (forall o, o ∈ candidates game s -> id o = i -> isPlayer o = true) ->
                   target_of e <> Some i)).
Proof.
  intros Hno. split.
  - unfold update. destruct (c4 _); [done|].
    cbn [finish emit world set_self].
    destruct (sweep_flags (closestIntersection (scanned game s (candidates game s)))
                (sim (scanned game s (candidates game s)))) as (_ & _ & _ & ->).
    unfold scanned. by rewrite fold_scan_world_harmless.
  - pose (P := fun e : Event num =>
                 (forall target amount source, e <> Damage target amount source)
                 /\ (forall i,
                        (forall o, o ∈ candidates game s -> id o = i ->
                                   isPlayer o = true) ->
                        target_of e <> Some i)).
    assert (Hg : grows P (trace s) (trace (update game s))).
    { apply (update_grows game s
               (fun sc rest =>
                  (forall o, o ∈ rest -> o ∈ candidates game s)
                  /\ forall o', closest_object (closestIntersection sc) = Some o' ->
                                o' ∈ candidates game s /\ isPlayer o' = false) P).
      - by split.
      - by split.
      - by split.
      - intros sc o0 rest [Hrest Hclosest].
        assert (Ho0 : o0 ∈ candidates game s) by (apply Hrest; by left).
        split.
        + split; [intros o Ho; apply Hrest; by right|].
          intros o' Ho'.
          destruct (scanObject_closest (tick_oldPosition s)
                      (tick_squaredVel game s) (tick_shouldDeal game s)
                      sc o0) as [Hcl|[Hcl [Hign _]]].
          * apply Hclosest. unfold scanStep in Ho'. by rewrite Hcl in Ho'.
          * unfold scanStep in Ho'. rewrite Hcl in Ho'. simplify_eq.
            split; [done|]. destruct (isPlayer o') eqn:Hp; [|done].
            rewrite Hno, ignores_player_harmless in Hign by done. done.
        + assert (Hnp : ignores (tick_shouldDeal game s) (self (sim sc)) o0
                          (world (sim sc) (id o0)) = false ->
                        forall i,
                          (forall o, o ∈ candidates game s -> id o = i ->
                                     isPlayer o = true) -> id o0 <> i).
          { intros Hign i Hi Heq. specialize (Hi o0 Ho0 Heq).
            rewrite Hno, ignores_player_harmless in Hign by done. done. }
          intros [t a src|t|t| | | | | |] He; cbn in He; try done.
          * destruct He as (_ & _ & Hshould & _). congruence.
          * destruct He as (-> & Hign). split; [done|].
            intros i Hi. cbn. intros [= Heq]. by apply (Hnp Hign i Hi).
          * destruct He as (-> & [Hign _]). split; [done|].
            intros i Hi. cbn. intros [= Heq]. by apply (Hnp Hign i Hi).
      - intros sc o' [_ Hclosest] Ho'. destruct (Hclosest o' Ho') as [Hin Hp].
        split; [done|]. intros i Hi. cbn. intros [= Heq].
        specialize (Hi o' Hin Heq). congruence. }
    apply grows_app in Hg as (evs & Heq & Hall).
    exists evs. split; [done|]. by apply Forall_forall.
Qed.

(** X4: stairs are never damaged and never bounced off.  If every object that
    the grid reports under identity [i] is a stair obstacle, the only events
    of the tick that target [i] are calls of its stair hook. *)
Theorem stairs_only_hooked s (i : nat) :
  (forall o, o ∈ candidates game s -> id o = i ->
             isObstacle o && isStair o = true) ->
  exists evs,
    trace (update game s) = evs ++ trace s
    /\ (forall e, e ∈ evs -> target_of e = Some i -> e = StairInteraction i).
Proof.
  intros Hstairs.
  pose (P := fun e : Event num => target_of e = Some i -> e = StairInteraction i).
  assert (Hg : grows P (trace s) (trace (update game s))).
  { apply (update_grows_steps s
             (fun sc rest =>
                (forall o, o ∈ rest -> o ∈ candidates game s)
                /\ forall o', closest_object (closestIntersection sc) = Some o' ->
                              id o' <> i) P).
    - by intros ?.
    - by intros ?.
    - by split.
    - intros sc o0 rest [Hrest Hclosest].
      assert (Ho0 : o0 ∈ candidates game s) by (apply Hrest; by left).
      destruct (decide (id o0 = i)) as [Heq|Hne].
      + destruct (scanObject_stair (tick_oldPosition s) (tick_squaredVel game s)
                    (tick_shouldDeal game s) sc o0 (Hstairs o0 Ho0 Heq))
          as (Hg & Hcl & _).
        split.
        * split; [intros o Ho; apply Hrest; by right|].
          unfold scanStep. by rewrite Hcl.
        * eapply grows_weaken; [|exact Hg]. intros e -> _. by rewrite Heq.
      + split.
        * split; [intros o Ho; apply Hrest; by right|].
          intros o' Ho'.
          destruct (scanObject_closest (tick_oldPosition s)
                      (tick_squaredVel game s) (tick_shouldDeal game s)
                      sc o0) as [Hcl|[Hcl _]].
          -- apply Hclosest. unfold scanStep in Ho'. by rewrite Hcl in Ho'.
          -- unfold scanStep in Ho'. rewrite Hcl in Ho'. by simplify_eq.
        * eapply grows_weaken; [|apply scanObject_grows].
          intros [t a src|t|t| | | | | |] He; cbn in He; try done;
            destruct He as [-> _]; intros [= Heq]; done.
    - intros sc o' [_ Hclosest] Ho' [= Heq]. by destruct (Hclosest o' Ho'). }
  apply grows_app in Hg as (evs & Heq & Hall).
  exists evs. split; [done|].
  intros e He. rewrite Forall_forall in Hall. exact (Hall e He).
Qed.

Lemma canFlyOver_closed_door (v2 : num) this (object : GameObject)
    (o : Obj.state num) :
  isObstacle object = true -> Obj.door o = Some false ->
  canFlyOver v2 this object o = false.
Proof.
  intros Hobs Hdoor. unfold canFlyOver, doorNotClosed. by rewrite Hobs, Hdoor.
Qed.

(** X5: a closed door is never flown over, whatever its fly-over preference,
    the speed of the projectile and the layers.  If the projectile overlaps
    or crosses an obstacle that is alive and collidable and whose door is
    closed when the loop reaches it, the drag is [Harsh] when the tick ends,
    and the tick neither adds the door to [currentlyAbove] nor removes it.
    (A dead or non-collidable door is skipped by the filter at the head of
    the loop and has no effect at all.) *)
Theorem closed_door_blocks s (object : GameObject)
    (before after : list GameObject) :
  c4 (definition (self s)) = false ->
  candidates game s = before ++ object :: after ->
  NoDup (map id (candidates game s)) ->
  isObstacle object = true ->
  let sc := scanned game s before in
  let o := world (sim sc) (id object) in
  Obj.door o = Some false ->
  Obj.dead o = false ->
  Obj.collidable o = true ->
  overlaps (tick_oldPosition s) (self (sim sc)) o = true ->
  currentDrag (self (update game s)) = Harsh
  /\ (id object ∈ currentlyAbove (self (update game s))
      <-> id object ∈ currentlyAbove (self s)).
Proof.
  intros Hc4 Hcand Hnd Hobs sc o Hdoor Hdead Hcollidable Hover.
  assert (Hign : ignores (tick_shouldDeal game s) (self (sim sc)) object o = false).
  { unfold ignores. rewrite Hdead, Hobs, Hcollidable. cbn [orb negb andb].
    unfold overlaps in Hover. destruct (Obj.hitbox o) as [hitbox|]; [|done].
    by rewrite bool_decide_eq_true_2 by by eexists. }
  assert (Hkind : isObstacle object || isBuilding object = true) by by rewrite Hobs.
  assert (Hfly := canFlyOver_closed_door (tick_squaredVel game s) (self (sim sc))
                    object o Hobs Hdoor).
  assert (Hids : (id object ∉ map id before) /\ (id object ∉ map id after)).
  { rewrite Hcand, map_app in Hnd. cbn in Hnd.
    apply NoDup_app in Hnd as (_ & Hdisj & Hnd).
    apply NoDup_cons in Hnd as [Hafter _]. split; [|done].
    intros Hb. apply (Hdisj _ Hb). by left. }
  destruct Hids as [Hbefore Hafter].
  assert (Hsplit : scanned game s (candidates game s)
                   = fold_left (scanStep game s) after (scanStep game s sc object)).
  { rewrite Hcand, scanned_app. reflexivity. }
  rewrite (update_unfold s Hc4). split.
  - rewrite finish_currentDrag, Hsplit.
    apply (drag_sticks _ _ (sweep_identity _ _)).
    apply (drag_sticks _ _ (fold_scan_identity game s after _)).
    by apply scanObject_drag.
  - rewrite finish_currentlyAbove, sweep_currentlyAbove, Hsplit.
    rewrite fold_scan_member by done.
    unfold scanStep. rewrite scanObject_not_above by done.
    unfold sc, scanned. rewrite fold_scan_member by done.
    cbn [sim]. by rewrite prepared_currentlyAbove.
Qed.

Lemma fold_scan_damaged s (l : list GameObject) sc :
  exists evs,
    trace (sim (fold_left (scanStep game s) l sc)) = evs ++ trace (sim sc)
    /\ forall j, j ∈ damagedThisTick (fold_left (scanStep game s) l sc) ->
                 j ∈ damagedThisTick sc
                 \/ ((j ∉ damagedLastTick (self (sim sc)))
                     /\ exists amount source, Damage j amount source ∈ evs).
Proof.
  revert sc. induction l as [|object l IH]; intros sc.
  - exists []. split; [done|]. intros j Hj. by left.
  - cbn [fold_left]. destruct (IH (scanStep game s sc object)) as (evs2 & Heq2 & H2).
    pose proof (scanObject_grows (tick_oldPosition s) (tick_squaredVel game s)
                  (tick_shouldDeal game s) sc object) as Hg.
    apply grows_app in Hg as (evs1 & Heq1 & _).
    fold (scanStep game s sc object) in Heq1.
    exists (evs2 ++ evs1). split; [by rewrite Heq2, Heq1, app_assoc|].
    intros j Hj. destruct (H2 j Hj) as [Hin|[Hnot (a & src & Hev)]].
    + destruct (scanObject_damaged (tick_oldPosition s) (tick_squaredVel game s)
                  (tick_shouldDeal game s) sc object)
        as [Hsame|(Hadd & Hfresh & a & src & Htr)];
        fold (scanStep game s sc object) in *.
      * left. by rewrite <- Hsame.
      * rewrite Hadd in Hin. apply elem_of_union in Hin as [Hin|Hin]; [|by left].
        apply elem_of_singleton in Hin as ->. right. split; [done|].
        exists a, src. apply elem_of_app. right.
        rewrite Heq1 in Htr.
        assert (evs1 = [HandleCollision (id object); Damage (id object) a src])
          as ->.
        { apply (app_inv_tail (trace (sim sc))). by rewrite Htr. }
        set_solver.
    + right. split.
      * by rewrite <- (same_damagedLastTick _ _
                         (scanObject_identity (tick_oldPosition s)
                            (tick_squaredVel game s) (tick_shouldDeal game s)
                            sc object)).
      * exists a, src. apply elem_of_app. by left.
Qed.

(** X6: [damagedLastTick] after a tick holds only objects that this very tick
    damaged, and none that was in it when the tick started: no object stays in
    the set for two ticks running, so the tick of grace lasts exactly one
    tick. *)
Theorem damagedLastTick_fresh s :
  c4 (definition (self s)) = false ->
  exists evs,
    trace (update game s) = evs ++ trace s
    /\ forall j, j ∈ damagedLastTick (self (update game s)) ->
                 (j ∉ damagedLastTick (self s))
                 /\ exists amount source, Damage j amount source ∈ evs.
Proof.
  intros Hc4. rewrite (update_unfold s Hc4).
  destruct (fold_scan_damaged s (candidates game s)
              (mkScan (prepared game s) ∅ initialClosest)) as (evs & Heq & Hall).
  fold (scanned game s (candidates game s)) in Heq, Hall.
  set (sc := scanned game s (candidates game s)) in *.
  pose proof (sweep_grows (fun _ => True) (closestIntersection sc) (sim sc)
                (fun _ _ => I)) as Hg.
  apply grows_app in Hg as (evs' & Heq' & _).
  exists (SetPartialDirty :: UpdateObject :: evs' ++ evs). split.
  - cbn [finish emit trace set_self]. rewrite Heq', Heq. cbn.
    by rewrite app_assoc.
  - cbn [finish emit self set_self damagedLastTick set_damagedLastTick
           set_collideWithOwner set_position].
    intros j Hj. destruct (Hall j Hj) as [Hin|[Hnot (a & src & Hev)]].
    + cbn in Hin. set_solver.
    + cbn [sim] in Hnot.
      rewrite (same_damagedLastTick _ _ (prepared_identity game s)) in Hnot.
      split; [done|]. exists a, src. set_solver.
Qed.

Lemma fold_scan_joins s (l : list GameObject) sc (j : nat) :
  j ∈ currentlyAbove (self (sim (fold_left (scanStep game s) l sc))) ->
  j ∈ currentlyAbove (self (sim sc))
  \/ exists o, o ∈ l /\ id o = j /\ isObstacle o || isBuilding o = true.
Proof.
  revert sc. induction l as [|object l IH]; intros sc Hj; [by left|].
  cbn in Hj. destruct (IH _ Hj) as [Hin|(o & Ho & Hid & Hk)].
  - destruct (scanObject_joins _ _ _ sc object j Hin) as [?|(-> & Hk & _)].
    + by left.
    + right. exists object. split; [by left | done].
  - right. exists o. split; [by right | done].
Qed.

(** X7: only obstacles and buildings that the grid reported enter
    [currentlyAbove]: who is in the set after a tick was in it before, or is
    an obstacle or a building among the candidates of this tick. *)
Theorem currentlyAbove_members s (j : nat) :
  j ∈ currentlyAbove (self (update game s)) ->
  j ∈ currentlyAbove (self s)
  \/ exists o, o ∈ candidates game s /\ id o = j
               /\ isObstacle o || isBuilding o = true.
Proof.
  unfold update. destruct (c4 _); [by left|].
  cbn zeta. rewrite finish_currentlyAbove, sweep_currentlyAbove.
  intros Hj.
  destruct (fold_scan_joins s (candidates game s)
              (mkScan (prepared game s) ∅ initialClosest) j Hj) as [Hin|Hin];
    [|by right].
  left. cbn [sim] in Hin. by rewrite prepared_currentlyAbove in Hin.
Qed.

End TickMore.

(** ** The collision responses of a tick *)

Section Responses.
Context {num : Type} {N : Number num} {E : Externals num}.
Local Open Scope num_scope.

Implicit Type s : Sim num.
Implicit Type this : ThrowableProjectile num.
Implicit Type sc : Scan num.

Variable game : Game num.

Lemma responses_app (l1 l2 : list (Event num)) :
  responses (l1 ++ l2) = (responses l1 + responses l2)%nat.
Proof.
  induction l1 as [|e l1 IH]; [done|]. destruct e; cbn; by rewrite ?IH.
Qed.

(** The loop over the candidates: its calls of [handleCollision], the
    angular velocity and the position. *)
Lemma fold_scan_responses s (l : list GameObject) sc :
  exists evs,
    trace (sim (fold_left (scanStep game s) l sc)) = evs ++ trace (sim sc)
    /\ responses evs <= length l
    /\ angularVelocity (self (sim (fold_left (scanStep game s) l sc)))
       = Nat.iter (responses evs) (fun a => a * ofQ 0.6)
           (angularVelocity (self (sim sc)))
    /\ (responses evs = 0 ->
        position (self (sim (fold_left (scanStep game s) l sc)))
        = position (self (sim sc))).
Proof.
  revert sc. induction l as [|object l IH]; intros sc.
  - exists []. cbn. repeat split; (done || lia).
  - cbn [fold_left].
    destruct (scanObject_responses (tick_oldPosition s) (tick_squaredVel game s)
                (tick_shouldDeal game s) sc object)
      as (evs1 & Ht1 & Hle1 & Hw1 & Hp1).
    fold (scanStep game s sc object) in Ht1, Hw1, Hp1.
    destruct (IH (scanStep game s sc object)) as (evs2 & Ht2 & Hle2 & Hw2 & Hp2).
    exists (evs2 ++ evs1). rewrite responses_app.
    split; [by rewrite Ht2, Ht1, app_assoc|].
    split; [cbn [length]; lia|].
    split.
    + by rewrite Hw2, Hw1, Nat.iter_add.
    + intros H0. rewrite Hp2, Hp1 by lia. reflexivity.
Qed.


Lemma prepared_kinematics s :
  position (self (prepared game s)) = position (integrate game (self s))
  /\ rotation (self (prepared game s)) = rotation (integrate game (self s))
  /\ angularVelocity (self (prepared game s)) = angularVelocity (self s).
Proof.
  unfold prepared. cbn [self set_self].
  destruct (classify_kinematics (integrate game (self s))) as (-> & _ & -> & _).
  repeat split. unfold classify. destruct (negb _); [|done].
  by destruct (floor_overlay _ _).
Qed.


(** A tick without a collision calls [handleCollision] on nothing. *)
Lemma quiet_no_response s : no_collision game s -> no_response game s.
Proof.
  intros Hq evs Hevs. unfold update in Hevs.
  destruct (c4 (definition (self s))).
  - cbn in Hevs. rewrite <- (app_nil_l (trace s)) in Hevs at 1.
    apply app_inv_tail in Hevs. by subst.
  - destruct (quiet_scan game s (candidates game s) Hq) as [above Hsc].
    rewrite Hsc in Hevs. cbn in Hevs.
    change (SetPartialDirty :: UpdateObject :: trace s)
      with ([SetPartialDirty; UpdateObject] ++ trace s) in Hevs.
    apply app_inv_tail in Hevs. by subst.
Qed.

(** X8: a C4 keeps its angular velocity.  For any other projectile the
    angular velocity after a tick is the one the loop over the candidates
    leaves - the swept correction and the last lines of the tick do not
    change it - and the loop multiplies it by 0.6 exactly once for each call
    of [handleCollision] it makes, of which there is at most one per
    candidate. *)
Theorem angularVelocity_after_tick s :
  (c4 (definition (self s)) = true ->
   angularVelocity (self (update game s)) = angularVelocity (self s))
  /\ (c4 (definition (self s)) = false ->
      let sc := scanned game s (candidates game s) in
      angularVelocity (self (update game s)) = angularVelocity (self (sim sc))
      /\ exists evs,
          trace (sim sc) = evs ++ trace s
          /\ responses evs <= length (candidates game s)
          /\ angularVelocity (self (sim sc))
             = Nat.iter (responses evs) (fun a => a * ofQ 0.6)
                 (angularVelocity (self s))).
Proof.
  split; intros Hc4.
  - unfold update. by rewrite Hc4.
  - cbn zeta. split.
    + rewrite update_unfold by exact Hc4.
      change (angularVelocity
                (self (sweep (closestIntersection (scanned game s (candidates game s)))
                         (sim (scanned game s (candidates game s)))))
              = angularVelocity (self (sim (scanned game s (candidates game s))))).
      by destruct (sweep_flags (closestIntersection (scanned game s (candidates game s)))
                     (sim (scanned game s (candidates game s)))) as (_ & _ & -> & _).
    + destruct (fold_scan_responses s (candidates game s)
                  (mkScan (prepared game s) ∅ initialClosest))
        as (evs & Ht & Hle & Hw & _).
      exists evs. repeat split; [exact Ht|exact Hle|].
      unfold scanned. rewrite Hw. cbn [sim].
      by destruct (prepared_kinematics s) as (_ & _ & ->).
Qed.

End Responses.

(** ** A tick of no duration *)

Section ZeroDuration.
Context {E : Externals R}.
Local Open Scope R_scope.

Implicit Type s : Sim R.
Implicit Type this : ThrowableProjectile R.



End ZeroDuration.



(** ** More on runs *)

Section RunsMore.
Context {num : Type} {N : Number num} {E : Externals num}.
Local Open Scope num_scope.

Implicit Type s : Sim num.

Lemma exec_one_way s (op : Op num) :
  (activated (self s) = true -> activated (self (exec s op)) = true)
  /\ (dead (self s) = true -> dead (self (exec s op)) = true)
  /\ (currentDrag (self s) = Harsh -> currentDrag (self (exec s op)) = Harsh).
Proof.
  destruct op as [game|angle speed|amount|delay| |w]; cbn.
  - destruct (c4 (definition (self s))) eqn:Hc4.
    + unfold update. by rewrite Hc4.
    + destruct (update_identity game s Hc4)
        as (_ & Hd & _ & _ & Ha & _ & _ & _ & Hdrag & _).
      rewrite Hd, Ha. by repeat split.
  - done.
  - unfold damage. destruct (health (self s)) as [h|]; [|done].
    destruct (negb (truthy h)); [done|]. by destruct (leb _ _).
  - done.
  - unfold timeout. destruct (timers s) as [|t rest]; [done|].
    unfold detonation. cbn. destruct (dead (self s)) eqn:Hd; [done|].
    cbn. by destruct (explosion _).
  - done.
Qed.

(** X9: three things about a projectile are one-way.  Once it is activated it
    stays activated, once it is dead it stays dead, and once its drag is
    [Harsh] it stays [Harsh], whatever ticks, pushes, damage, detonations and
    timers follow. *)
Theorem one_way_flags (ops : list (Op num)) s :
  (activated (self s) = true -> activated (self (run ops s)) = true)
  /\ (dead (self s) = true -> dead (self (run ops s)) = true)
  /\ (currentDrag (self s) = Harsh -> currentDrag (self (run ops s)) = Harsh).
Proof.
  revert s. induction ops as [|op ops IH]; intros s; [done|].
  change (run (op :: ops) s) with (run ops (exec s op)).
  destruct (IH (exec s op)) as (Ha & Hd & Hdrag).
  destruct (exec_one_way s op) as (Ha' & Hd' & Hdrag').
  repeat split; auto.
Qed.

Lemma exec_readonly s (op : Op num) :
  radius (self (exec s op)) = radius (self s)
  /\ spawnTime (self (exec s op)) = spawnTime (self s)
  /\ definition (self (exec s op)) = definition (self s)
  /\ owner (self (exec s op)) = owner (self s).
Proof.
  destruct op as [game|angle speed|amount|delay| |w]; cbn.
  - destruct (c4 (definition (self s))) eqn:Hc4.
    + unfold update. by rewrite Hc4.
    + by destruct (update_identity game s Hc4)
        as (-> & _ & _ & -> & _ & -> & -> & _).
  - done.
  - unfold damage. destruct (health (self s)) as [h|]; [|done].
    destruct (negb (truthy h)); [done|]. by destruct (leb _ _).
  - done.
  - unfold timeout. destruct (timers s) as [|t rest]; [done|].
    unfold detonation. cbn. destruct (dead (self s)); [done|].
    cbn. by destruct (explosion _).
  - done.
Qed.

(** X10: nothing the projectile does after its construction changes its
    radius, its spawn time, its definition or its thrower; in particular no
    collision ever resizes its hitbox. *)
Theorem readonly_fields (ops : list (Op num)) s :
  radius (self (run ops s)) = radius (self s)
  /\ spawnTime (self (run ops s)) = spawnTime (self s)
  /\ definition (self (run ops s)) = definition (self s)
  /\ owner (self (run ops s)) = owner (self s).
Proof.
  revert s. induction ops as [|op ops IH]; intros s; [done|].
  change (run (op :: ops) s) with (run ops (exec s op)).
  destruct (IH (exec s op)) as (-> & -> & -> & ->).
  apply exec_readonly.
Qed.

Lemma exec_dead_silent s (op : Op num) :
  dead (self s) = true ->
  explosions (trace (exec s op)) = explosions (trace s).
Proof.
  intros Hd. destruct op as [game|angle speed|amount|delay| |w]; cbn.
  - apply update_explosions.
  - done.
  - unfold damage. destruct (health (self s)) as [h|]; [|done].
    destruct (negb (truthy h)); [done|]. by destruct (leb _ _).
  - done.
  - unfold timeout. destruct (timers s) as [|t rest]; [done|].
    unfold detonation. cbn. by rewrite Hd.
  - done.
Qed.

(** X11: a projectile that is dead - destroyed by damage before its timer
    fired, or already detonated - spawns no explosion any more, whatever is
    done to it and however many timers are still pending. *)
Theorem dead_never_explodes (ops : list (Op num)) s :
  dead (self s) = true ->
  explosions (trace (run ops s)) = explosions (trace s).
Proof.
  revert s. induction ops as [|op ops IH]; intros s Hd; [done|].
  change (run (op :: ops) s) with (run ops (exec s op)).
  rewrite IH.
  - by apply exec_dead_silent.
  - by apply (exec_one_way s op).
Qed.

(** X12: a C4 does not move by itself.  Through any number of ticks its
    position, velocity, rotation, drag and layer stay what they were, it calls
    nothing (no grid update either), the other objects are untouched, and the
    grace flag is never set; only the airborne flag is cleared. *)
Theorem c4_stays_put (games : list (Game num)) s :
  c4 (definition (self s)) = true ->
  let s' := run (map OpUpdate games) s in
  position (self s') = position (self s)
  /\ velocity (self s') = velocity (self s)
  /\ rotation (self s') = rotation (self s)
  /\ currentDrag (self s') = currentDrag (self s)
  /\ layer (self s') = layer (self s)
  /\ collideWithOwner (self s') = collideWithOwner (self s)
  /\ trace s' = trace s
  /\ world s' = world s
  /\ (games <> [] -> airborne (self s') = false).
Proof.
  intros Hc4. cbn zeta. revert s Hc4.
  induction games as [|game games IH]; intros s Hc4; [done|].
  cbn [map]. change (run (OpUpdate game :: map OpUpdate games) s)
    with (run (map OpUpdate games) (update game s)).
  assert (Hupd : update game s = set_self s (set_airborne (self s) false)).
  { unfold update. by rewrite Hc4. }
  rewrite Hupd. destruct (IH (set_self s (set_airborne (self s) false)) Hc4)
    as (-> & -> & -> & -> & -> & -> & -> & -> & Hair).
  repeat split. intros _.
  destruct games as [|game' games]; [done|]. by apply Hair.
Qed.

End RunsMore.

(** ** More laws of the exact arithmetic *)

Section ExactMore.
Context {E : Externals R}.
Local Open Scope R_scope.

Implicit Type s : Sim R.
Implicit Type this : ThrowableProjectile R.

Lemma clamp_between (value lo hi : R) :
  lo <= hi -> lo <= Numeric.clamp value lo hi <= hi.
Proof.
  intros Hle. unfold Numeric.clamp. cbn. unfold Rltb.
  destruct (Rlt_dec value hi), (Rlt_dec lo value); lra.
Qed.

(** X13: every tick of a projectile that is not a C4 ends with the projectile
    inside the world, inset by its radius, whatever it collided with - as long
    as the world is at least one diameter wide and high. *)
Theorem stays_in_world (game : Game R) s :
  c4 (definition (self s)) = false ->
  2 * radius (self s) <= map_width game ->
  2 * radius (self s) <= map_height game ->
  radius (self s) <= Vec.x (position (self (update game s)))
    <= map_width game - radius (self s)
  /\ radius (self s) <= Vec.y (position (self (update game s)))
    <= map_height game - radius (self s).
Proof.
  intros Hc4 Hw Hh. rewrite (update_unfold game s Hc4).
  set (sc := scanned game s (candidates game s)).
  assert (Hr : radius (self (sweep (closestIntersection sc) (sim sc)))
               = radius (self s)).
  { rewrite (same_radius _ _ (sweep_identity _ _)).
    unfold sc, scanned.
    rewrite (same_radius _ _ (fold_scan_identity game s _ _)). cbn [sim].
    by rewrite (same_radius _ _ (prepared_identity game s)). }
  cbn [finish emit self set_self position set_position set_collideWithOwner
         set_damagedLastTick Vec.x Vec.y radius].
  rewrite Hr. split; apply clamp_between; cbn; lra.
Qed.

Lemma squaredLength_sqrt (v : Vector R) :
  R_sqrt.sqrt (Vec.squaredLength v) * R_sqrt.sqrt (Vec.squaredLength v)
  = Vec.squaredLength v.
Proof.
  apply sqrt_sqrt. destruct v as [vx vy]. unfold Vec.squaredLength. cbn. nra.
Qed.

Lemma squaredLength_scale (v : Vector R) (k : R) :
  Vec.squaredLength (Vec.scale v k) = Vec.squaredLength v * (k * k).
Proof.
  destruct v as [vx vy]. unfold Vec.squaredLength, Vec.scale. cbn. ring.
Qed.

(** The displacement of a half step, by cases on the cap: the plain
    [velocity * halfDt] within the cap, and beyond it that vector shortened to
    the length [speedCap * halfDt]. *)
Lemma safeDisplacement_cases this (halfDt : R) :
  0 <= speedCap (definition this) ->
  0 <= halfDt ->
  let cap := speedCap (definition this) * halfDt in
  let plain := Vec.scale (velocity this) halfDt in
  (Vec.length plain <= cap /\ calculateSafeDisplacement this halfDt = plain)
  \/ (cap < Vec.length plain
      /\ calculateSafeDisplacement this halfDt
         = Vec.scale plain (cap / Vec.length plain)).
Proof.
  intros Hcap Hdt cap plain. unfold calculateSafeDisplacement. fold plain.
  change (@mul R R_Number (speedCap (definition this)) halfDt) with cap.
  change (@ltb R R_Number cap (Vec.length plain))
    with (Rltb cap (Vec.length plain)).
  destruct (Rltb cap (Vec.length plain)) eqn:Hlt.
  - apply Rltb_true in Hlt. by right.
  - apply Rltb_false in Hlt. by left.
Qed.

Lemma safeDisplacement_bound this (halfDt : R) :
  0 <= speedCap (definition this) ->
  0 <= halfDt ->
  Vec.squaredLength (calculateSafeDisplacement this halfDt)
  <= (speedCap (definition this) * halfDt) * (speedCap (definition this) * halfDt).
Proof.
  intros Hcap Hdt.
  pose proof (squaredLength_sqrt (Vec.scale (velocity this) halfDt)) as Hsq.
  pose proof (sqrt_pos (Vec.squaredLength (Vec.scale (velocity this) halfDt)))
    as Hpos.
  destruct (safeDisplacement_cases this halfDt Hcap Hdt) as [[Hle ->]|[Hlt ->]];
    unfold Vec.length in *; change (@sqrt R R_Number) with R_sqrt.sqrt in *;
    set (len := R_sqrt.sqrt _) in *;
    set (cap := speedCap (definition this) * halfDt) in *;
    assert (Hc : 0 <= cap) by (unfold cap; nra).
  - rewrite <- Hsq. nra.
  - rewrite squaredLength_scale, <- Hsq. clearbody len.
    replace (len * len * (cap / len * (cap / len))) with (cap * cap)
      by (field; lra).
    lra.
Qed.

(** X14: the displacement of a half step never exceeds the speed cap: its
    squared length is at most [(speedCap * halfDt)^2]; it is the plain
    [velocity * halfDt] whenever that is within the cap, and otherwise that
    vector shortened, never turned. *)
Theorem safeDisplacement_capped this (halfDt : R) :
  0 <= speedCap (definition this) ->
  0 <= halfDt ->
  let cap := speedCap (definition this) * halfDt in
  let plain := Vec.scale (velocity this) halfDt in
  Vec.squaredLength (calculateSafeDisplacement this halfDt) <= cap * cap
  /\ (Vec.length plain <= cap -> calculateSafeDisplacement this halfDt = plain)
  /\ exists k, 0 <= k <= 1 /\ calculateSafeDisplacement this halfDt = Vec.scale plain k.
Proof.
  intros Hcap Hdt cap plain.
  split; [by apply safeDisplacement_bound|].
  assert (Hc : 0 <= cap) by (unfold cap; nra).
  destruct (safeDisplacement_cases this halfDt Hcap Hdt) as [[Hle Heq]|[Hlt Heq]];
    fold cap plain in Hle || fold cap plain in Hlt; fold cap plain in Heq.
  - split; [done|]. exists 1. split; [lra|]. rewrite Heq.
    destruct plain as [px py]. unfold Vec.scale. cbn. f_equal; lra.
  - split; [intros Hle; lra|]. exists (cap / Vec.length plain).
    split; [|exact Heq].
    assert (Hinv : 0 < / Vec.length plain) by (apply Rinv_0_lt_compat; lra).
    assert (Hone : Vec.length plain * / Vec.length plain = 1) by (field; lra).
    unfold Rdiv. split; nra.
Qed.

(** X15: the integration of one tick moves the projectile by at most
    [speedCap * dt]: the squared distance between the position before the
    tick and the position after the two half steps is at most
    [(speedCap * dt)^2]. *)
Theorem integrate_capped (game : Game R) this :
  0 <= speedCap (definition this) ->
  0 <= dt game ->
  Geometry.distanceSquared (position (integrate game this)) (position this)
  <= (speedCap (definition this) * dt game) * (speedCap (definition this) * dt game).
Proof.
  intros Hcap Hdt.
  assert (Hhalf : 0 <= Q2R 0.5 * dt game) by (unfold Q2R; cbn; lra).
  set (first := set_position this
                  (Vec.add (position this)
                     (calculateSafeDisplacement this (Q2R 0.5 * dt game)))).
  set (slowed := set_velocity first
                   (Vec.scale (velocity first)
                      (Q2R 1 / (Q2R 1 + dt game * dragValue (currentDrag first))))).
  pose proof (safeDisplacement_bound this (Q2R 0.5 * dt game) Hcap Hhalf) as H1.
  pose proof (safeDisplacement_bound slowed (Q2R 0.5 * dt game) Hcap Hhalf) as H2.
  change (position (integrate game this))
    with (Vec.add (Vec.add (position this)
                     (calculateSafeDisplacement this (Q2R 0.5 * dt game)))
            (calculateSafeDisplacement slowed (Q2R 0.5 * dt game))).
  change (speedCap (definition slowed)) with (speedCap (definition this)) in H2.
  destruct (calculateSafeDisplacement this _) as [ax ay].
  destruct (calculateSafeDisplacement slowed _) as [bx by'].
  destruct (position this) as [px py].
  unfold Geometry.distanceSquared, Vec.squaredLength, Vec.add in *. cbn in *.
  unfold Q2R in *. cbn in *.
  set (c := speedCap (definition this)) in *. set (d := dt game) in *.
  replace (px + ax + bx - px) with (ax + bx) by ring.
  replace (py + ay + by' - py) with (ay + by') by ring.
  clearbody c d. clear first slowed.
  replace (c * (5 * / 10 * d) * (c * (5 * / 10 * d)))
    with (c * d * (c * d) / 4) in H1, H2 by field.
  pose proof (Rle_0_sqr (ax - bx)) as Hx.
  pose proof (Rle_0_sqr (ay - by')) as Hy.
  unfold Rsqr in Hx, Hy. lra.
Qed.

(** X16: a bounce keeps 40% of the speed.  Off a unit normal, a non-zero
    velocity is reflected to one whose squared length is 0.16 times the
    squared length before. *)
Theorem reflect_keeps_two_fifths (v n : Vector R) :
  v <> Vec.create 0 0 ->
  Vec.squaredLength n = 1 ->
  Vec.squaredLength (reflect v n) = 0.16 * Vec.squaredLength v.
Proof.
  intros Hv Hn. rewrite (reflect_satisfies_law v n Hv).
  destruct v as [vx vy], n as [nx ny].
  unfold reflection_law, Vec.squaredLength, Vec.scale, Vec.dotProduct in *.
  cbn in *. unfold Q2R. cbn.
  set (d := vx * nx + vy * ny).
  replace ((vx - 2 * / 1 * d * nx) * (4 * / 10) * ((vx - 2 * / 1 * d * nx) * (4 * / 10))
           + (vy - 2 * / 1 * d * ny) * (4 * / 10) * ((vy - 2 * / 1 * d * ny) * (4 * / 10)))
    with (16 / 100 * (vx * vx + vy * vy)
          + 64 / 100 * d * d * (nx * nx + ny * ny - 1))
    by (unfold d; field).
  rewrite Hn. lra.
Qed.

(** X17: the sign of the normal does not matter to the velocity.  For a
    rectangle or a polygon the code negates the direction of the collision
    response; the velocity is reflected exactly as with the direction as
    reported, so that the negation only turns the translation around. *)
Theorem reflect_ignores_sign (v : Vector R) (c : Collision R) :
  reflect v (dir (negate c)) = reflect v (dir c).
Proof.
  destruct v as [vx vy], c as [[nx ny] p].
  unfold reflect, negate, Vec.length, Vec.scale, Vec.add, Vec.dotProduct.
  cbn. f_equal; ring.
Qed.

End ExactMore.

(** ** Collisions, construction and destruction *)

Section CollisionMore.
Context {num : Type} {N : Number num} {E : Externals num}.
Local Open Scope num_scope.

Implicit Type s : Sim num.
Implicit Type this : ThrowableProjectile num.

Lemma bailsEarly_false this (object : GameObject) (o : Obj.state num) :
  bailsEarly this object o = false ->
  Obj.dead o = false
  /\ ((isObstacle object || isBuilding object = true
       /\ isObstacle object && isStair object = false
       /\ Obj.collidable o = true)
      \/ (isPlayer object = true
          /\ (collideWithOwner this = true \/ id object <> id (owner this)))).
Proof.
  unfold bailsEarly, isObstacle, isBuilding, isPlayer.
  destruct (Obj.dead o); [done|]. cbn [orb].
  destruct (category object), (isStair object), (Obj.collidable o),
    (collideWithOwner this);
    cbn; repeat case_bool_decide; cbn; intros Hbail; try done;
    (split; [done|]); try (left; by repeat split);
    right; (split; [done|]); (by left) || (by right).
Qed.

(** X18: [handleCollision] changes the projectile only on contact with
    something solid.  If a call changes anything about the projectile, the
    object is alive, has a hitbox that collides with the projectile's, is on
    the projectile's layer, and is a collidable obstacle (no stair) or
    building, or else a player, who is not the thrower unless the grace flag
    [collideWithOwner] is set; and whatever the call does, only the position
    and the velocity can have changed. *)
Theorem handleCollision_only_on_contact (object : GameObject) s :
  (self (handleCollision object s) <> self s ->
   let o := world s (id object) in
   Obj.dead o = false
   /\ (exists hitbox, Obj.hitbox o = Some hitbox
         /\ collidesWith hitbox (this_hitbox (self s)) = true)
   /\ equalLayer (layer (self s)) (Obj.layer o) = true
   /\ ((isObstacle object || isBuilding object = true
        /\ isObstacle object && isStair object = false
        /\ Obj.collidable o = true)
       \/ (isPlayer object = true
           /\ (collideWithOwner (self s) = true
               \/ id object <> id (owner (self s))))))
  /\ exists pos v,
      self (handleCollision object s)
      = set_velocity (set_position (self s) pos) v.
Proof.
  split.
  - unfold handleCollision. cbn [self world emit].
    destruct (bailsEarly (self s) object (world s (id object))) eqn:Hb;
      [done|].
    apply bailsEarly_false in Hb as (Hdead & Hkind).
    destruct (Obj.hitbox (world s (id object))) as [hitbox|] eqn:Hh; [|done].
    destruct (collidesWith hitbox (this_hitbox (self s))) eqn:Hc; [|done].
    destruct (equalLayer (layer (self s)) (Obj.layer (world s (id object))))
      eqn:Hl; [|done].
    intros _. cbn zeta. split; [done|]. split; [by exists hitbox|]. by split.
  - destruct (handleCollision_writes object s) as (pos & v & ->).
    by exists pos, v.
Qed.

(** X23: a group none of whose members touches the projectile does nothing
    to it, whatever [collidesWith] says about the group as a whole: the
    response of the group stays null, and neither the position nor the
    velocity changes. *)
Theorem group_without_contact (object : GameObject) s
    (hitboxes : list (Hitbox num)) :
  Obj.hitbox (world s (id object)) = Some (GroupHitbox hitboxes) ->
  Forall (fun h => collidesWith h (this_hitbox (self s)) = false) hitboxes ->
  resolve (radius (self s)) (GroupHitbox hitboxes) (position (self s))
  = (None, position (self s))
  /\ self (handleCollision object s) = self s.
Proof.
  intros Hh Hall.
  assert (Hres : resolve (radius (self s)) (GroupHitbox hitboxes)
                   (position (self s)) = (None, position (self s))).
  { rewrite resolve_group.
    by rewrite (resolveMembers_clear (radius (self s)) hitboxes None
                  (position (self s)) Hall). }
  split; [exact Hres|].
  unfold handleCollision. cbn [self world emit].
  destruct (bailsEarly _ _ _); [done|]. rewrite Hh.
  destruct (negb _ || negb _); [done|]. rewrite Hres.
  by destruct s as [[] ? ? ?].
Qed.

Lemma construct_loop (l : list GameObject) s :
  exists pos v evs,
    fold_left (fun s object => handleCollision object s) l s
    = mkSim (set_velocity (set_position (self s) pos) v) (world s) (timers s)
        (evs ++ trace s)
    /\ Forall (fun e => exists i, e = HandleCollision i) evs.
Proof.
  revert s. induction l as [|o l IH]; intros s.
  - exists (position (self s)), (velocity (self s)), []. split; [|constructor].
    destruct s as [[] ? ? ?]; reflexivity.
  - cbn [fold_left].
    destruct (handleCollision_writes o s) as (pos & v & ->).
    destruct (IH (emit (HandleCollision (id o))
                    (set_self s (set_velocity (set_position (self s) pos) v))))
      as (pos' & v' & evs & -> & Hall).
    exists pos', v', (evs ++ [HandleCollision (id o)]). split.
    + cbn. by rewrite <- app_assoc.
    + apply Forall_app. split; [done|]. constructor; [by eexists|constructor].
Qed.

(** What the constructor has called, and the health it leaves. *)
Lemma construct_registers (time : num) (w : World num) (pos : Vector num)
    (l : Layer) (def : ThrowableDefinition num) (thrower : GameObject) (r : num) :
  let s := construct time w pos l def thrower r in
  (exists evs,
      trace s = (if c4 def then [RegisterC4] else []) ++ evs
      /\ Forall (fun e => exists i, e = HandleCollision i) evs)
  /\ health (self s)
     = match def_health def with
       | Some h => if truthy h then Some h else None
       | None => None
       end.
Proof.
  unfold construct.
  set (this := mkProjectile _ _ _ _ _ _ _ _ _ _ _ _ _ _ _ _ _).
  destruct (construct_loop (grid_intersectsHitbox w (this_hitbox this) None)
              (mkSim this w [] [])) as (pos' & v & evs & -> & Hall).
  cbn [self world timers trace]. rewrite app_nil_r.
  split.
  - exists evs. split; [|done].
    by destruct (c4 def), (def_health def) as [h|]; try destruct (truthy h).
  - by destruct (c4 def), (def_health def) as [h|]; try destruct (truthy h).
Qed.

(** X19: the constructor only places the projectile.  It damages nothing and
    leaves the world as it was, starts no timer, and calls nothing but its own
    collision response and, for a C4, the registration with the thrower; the
    projectile starts airborne, alive, not activated, with normal drag, above
    nothing, in the time of grace, on the given layer, and has health exactly
    if its definition gives a health that is neither 0 nor NaN. *)
Theorem construct_fresh (time : num) (w : World num) (pos : Vector num)
    (l : Layer) (def : ThrowableDefinition num) (thrower : GameObject) (r : num) :
  let s := construct time w pos l def thrower r in
  world s = w /\ timers s = []
  /\ (exists evs,
        trace s = (if c4 def then [RegisterC4] else []) ++ evs
        /\ Forall (fun e => exists i, e = HandleCollision i) evs)
  /\ airborne (self s) = true /\ dead (self s) = false
  /\ activated (self s) = false /\ collideWithOwner (self s) = false
  /\ currentDrag (self s) = Normal
  /\ currentlyAbove (self s) = ∅ /\ damagedLastTick (self s) = ∅
  /\ layer (self s) = l /\ radius (self s) = r /\ spawnTime (self s) = time
  /\ definition (self s) = def /\ owner (self s) = thrower
  /\ health (self s)
     = match def_health def with
       | Some h => if truthy h then Some h else None
       | None => None
       end.
Proof.
  unfold construct.
  set (this := mkProjectile _ _ _ _ _ _ _ _ _ _ _ _ _ _ _ _ _).
  destruct (construct_loop (grid_intersectsHitbox w (this_hitbox this) None)
              (mkSim this w [] [])) as (pos' & v & evs & -> & Hall).
  cbn [self world timers trace]. rewrite app_nil_r.
  assert (Htrace : exists evs',
             (if c4 def then [RegisterC4] else []) ++ evs
             = (if c4 def then [RegisterC4] else []) ++ evs'
             /\ Forall (fun e : Event num => exists i, e = HandleCollision i) evs')
    by (by exists evs).
  destruct (c4 def), (def_health def) as [h|]; try destruct (truthy h);
    cbn; repeat split; try done.
Qed.

Lemma indexOf_missing (x : nat) (l : list nat) : x ∉ l -> indexOf x l = (-1)%Z.
Proof.
  induction l as [|y l IH]; [done|]. intros Hx.
  apply not_elem_of_cons in Hx as [Hxy Hl]. cbn.
  rewrite bool_decide_eq_false_2 by done. by rewrite (IH Hl).
Qed.

Lemma indexOf_found (x : nat) (l1 l2 : list nat) :
  x ∉ l1 -> indexOf x (l1 ++ x :: l2) = Z.of_nat (length l1).
Proof.
  induction l1 as [|y l1 IH]; intros Hx.
  - cbn. by rewrite bool_decide_eq_true_2.
  - apply not_elem_of_cons in Hx as [Hxy Hl]. cbn [app indexOf].
    rewrite bool_decide_eq_false_2 by done. rewrite (IH Hl). cbn zeta.
    destruct (Z.ltb_spec (Z.of_nat (length l1)) 0); [lia|].
    cbn [length]. lia.
Qed.

Lemma splice_found (me : nat) (l1 l2 : list nat) :
  me ∉ l1 ->
  splice (indexOf me (l1 ++ me :: l2)) 1 (l1 ++ me :: l2) = l1 ++ l2.
Proof.
  intros Hl1. rewrite (indexOf_found me l1 l2 Hl1). unfold splice.
  rewrite length_app. cbn [length].
  destruct (Z.ltb_spec (Z.of_nat (length l1)) 0); [lia|].
  rewrite Z.min_l by lia.
  replace (Z.min (Z.max 1 0) _) with 1%Z by lia.
  rewrite Nat2Z.id.
  replace (Z.to_nat (Z.of_nat (length l1) + 1)) with (length l1 + 1)%nat by lia.
  rewrite take_app_length.
  rewrite <- drop_drop, drop_app_length. reflexivity.
Qed.

Lemma splice_missing (me : nat) (c4s : list nat) :
  me ∉ c4s -> splice (indexOf me c4s) 1 c4s = removelast c4s.
Proof.
  intros Hme. rewrite (indexOf_missing me c4s Hme). unfold splice.
  destruct c4s as [|a c4s _] using rev_ind; [reflexivity|].
  rewrite removelast_last, length_app. cbn [length].
  change (-1 <? 0)%Z with true. cbv iota.
  replace (Z.max (Z.of_nat (length c4s + 1) + -1) 0)
    with (Z.of_nat (length c4s)) by lia.
  replace (Z.min (Z.max 1 0) _) with 1%Z by lia.
  rewrite Nat2Z.id.
  replace (Z.to_nat (Z.of_nat (length c4s) + 1)) with (length (c4s ++ [a]))
    by (rewrite length_app; cbn; lia).
  by rewrite take_app_length, drop_all, app_nil_r.
Qed.

Lemma removelast_pred (l : list nat) :
  length (removelast l) = pred (length l).
Proof.
  destruct l as [|a l _] using rev_ind; [done|].
  rewrite removelast_last, length_app. cbn. lia.
Qed.

(** X20: the destruction of a projectile by [damage] removes one entry from
    the thrower's list of C4s whenever the list is not empty (an empty list
    stays empty): the first occurrence of the projectile if it is in the
    list, and otherwise - [indexOf] answers -1, and [splice(-1, 1)] counts
    from the end - the last entry, which is another projectile. *)
Theorem deregister_removes_one s (h amount : num) (me : nat) (c4s : list nat) :
  health (self s) = Some h ->
  truthy h = true ->
  (h - amount <=? ofQ 0) = true ->
  let before := c4s_after me (trace s) c4s in
  let after := c4s_after me (trace (damage amount s)) c4s in
  (forall l1 l2, before = l1 ++ me :: l2 -> me ∉ l1 -> after = l1 ++ l2)
  /\ (me ∉ before -> after = removelast before)
  /\ length after = pred (length before).
Proof.
  intros Hh Ht Hle before after.
  assert (Hafter : after = splice (indexOf me before) 1 before).
  { unfold after, before, damage. rewrite Hh, Ht. cbn [negb]. cbn zeta.
    rewrite Hle. reflexivity. }
  rewrite Hafter. clearbody before. clear after Hafter.
  split; [|split].
  - intros l1 l2 -> Hl1. by apply splice_found.
  - apply splice_missing.
  - destruct (decide (me ∈ before)) as [Hin|Hout].
    + apply list_elem_of_split_l in Hin as (l1 & l2 & -> & Hl1).
      rewrite (splice_found me l1 l2 Hl1), !length_app. cbn. lia.
    + rewrite (splice_missing me before Hout). apply removelast_pred.
Qed.

Lemma c4s_after_collisions (me : nat) (evs : list (Event num)) (c4s : list nat) :
  Forall (fun e => exists i, e = HandleCollision i) evs ->
  c4s_after me evs c4s = c4s.
Proof.
  induction 1 as [|e evs [i ->] _ IH]; [done|]. cbn. exact IH.
Qed.

(** X21: registration and deregistration do not pair up.  A projectile whose
    definition gives it health is destroyed by damage that brings the health
    to 0 or below, and is then deregistered from the thrower's list whether
    or not it is a C4.  A C4 was registered by its constructor, and the list
    is afterwards what it was before; any other projectile was never in the
    list, and the thrower's most recently placed C4 is dropped instead. *)
Theorem destruction_deregisters (time : num) (w : World num) (pos : Vector num)
    (l : Layer) (def : ThrowableDefinition num) (thrower : GameObject) (r : num)
    (h amount : num) (me : nat) (c4s : list nat) :
  def_health def = Some h ->
  truthy h = true ->
  (h - amount <=? ofQ 0) = true ->
  me ∉ c4s ->
  let s := damage amount (construct time w pos l def thrower r) in
  dead (self s) = true
  /\ c4s_after me (trace s) c4s = if c4 def then c4s else removelast c4s.
Proof.
  intros Hh Ht Hle Hme.
  destruct (construct_registers time w pos l def thrower r)
    as ((evs & Htr & Hall) & Hhealth).
  rewrite Hh, Ht in Hhealth.
  set (s0 := construct time w pos l def thrower r) in *.
  cbn zeta. unfold damage. rewrite Hhealth, Ht. cbn [negb]. cbn zeta.
  rewrite Hle. split; [reflexivity|].
  cbn [removeProjectile emit set_self trace]. rewrite Htr.
  cbn [c4s_after foldr c4s_event].
  destruct (c4 def).
  - cbn [app foldr c4s_event].
    fold (c4s_after me evs c4s). rewrite (c4s_after_collisions me evs c4s Hall).
    rewrite (splice_found me c4s [] Hme). by rewrite app_nil_r.
  - cbn [app]. fold (c4s_after me evs c4s).
    rewrite (c4s_after_collisions me evs c4s Hall). by apply splice_missing.
Qed.

End CollisionMore.

Section DamageExact.
Context {E : Externals R}.
Local Open Scope R_scope.

Implicit Type s : Sim R.

(** X22: damage is guarded by the health, not by [dead].  A hit of more than
    the remaining health destroys the projectile and leaves its health
    negative, so that a later hit destroys it once more: the projectile is
    removed from the game and deregistered from the thrower's list a second
    time.  Only a hit of exactly the remaining health, which leaves the
    health at 0, makes every later hit do nothing. *)
Theorem damage_after_destruction s (h first later : R) :
  health (self s) = Some h ->
  0 < h ->
  h <= first ->
  0 <= later ->
  (h < first ->
   trace (damage later (damage first s))
   = RemoveProjectile :: DeregisterC4 :: RemoveProjectile :: DeregisterC4 :: trace s)
  /\ (first = h -> damage later (damage first s) = damage first s).
Proof.
  intros Hh Hpos Hle Hlater.
  assert (Htruthy : forall x : R, x <> 0 -> truthy x = true).
  { intros x Hx. unfold truthy. cbn. unfold Reqb, Q2R. cbn.
    destruct (Req_dec_T x (0 * / 1)); [lra|].
    by destruct (Req_dec_T x x). }
  assert (Hfalsy : truthy (0 : R) = false).
  { unfold truthy. cbn. unfold Reqb, Q2R. cbn.
    destruct (Req_dec_T 0 (0 * / 1)); [done|lra]. }
  assert (Hleb : forall x : R, x <= 0 -> (@leb R R_Number x (ofQ 0)) = true).
  { intros x Hx. cbn. unfold Rleb, Q2R. cbn.
    destruct (Rle_dec x (0 * / 1)); [done|lra]. }
  assert (Hfirst : damage first s
                   = removeProjectile
                       (emit DeregisterC4
                          (set_self s (set_health (self s) (Some (h - first)))))).
  { unfold damage. rewrite Hh, (Htruthy h) by lra. cbn [negb]. cbn zeta.
    change (@sub R R_Number h first) with (h - first).
    by rewrite (Hleb (h - first)) by lra. }
  split.
  - intros Hlt. rewrite Hfirst. unfold damage at 1.
    cbn [removeProjectile emit set_self self health set_dead set_health].
    rewrite (Htruthy (h - first)) by lra. cbn [negb]. cbn zeta.
    change (@sub R R_Number (h - first) later) with (h - first - later).
    rewrite (Hleb (h - first - later)) by lra. reflexivity.
  - intros ->. rewrite Hfirst. unfold damage at 1.
    cbn [removeProjectile emit set_self self health set_dead set_health].
    replace (h - h) with 0 by lra. by rewrite Hfalsy.
Qed.

End DamageExact.

(** ** The drawing helpers *)

Section DrawingMore.
Context {num : Type} {N : Number num}.
Variable PIXI_SCALE : num.
Variable Math_PI : num.
Local Open Scope num_scope.

Lemma Hitbox_nested_ind (P : Hitbox num -> Prop) :
  (forall position radius, P (CircleHitbox position radius)) ->
  (forall hmin hmax, P (RectangleHitbox hmin hmax)) ->
  (forall center points normals, P (PolygonHitbox center points normals)) ->
  (forall hitboxes, Forall P hitboxes -> P (GroupHitbox hitboxes)) ->
  forall hitbox, P hitbox.
Proof.
  intros HC HR HP HG.
  refine (fix IH (hitbox : Hitbox num) : P hitbox :=
            match hitbox with
            | CircleHitbox position radius => HC position radius
            | RectangleHitbox hmin hmax => HR hmin hmax
            | PolygonHitbox center points normals => HP center points normals
            | GroupHitbox hitboxes =>
                HG hitboxes
                  ((fix all (l : list (Hitbox num)) : Forall P l :=
                      match l with
                      | [] => @List.Forall_nil _ P
                      | h :: rest => @List.Forall_cons _ P h rest (IH h) (all rest)
                      end) hitboxes)
            end).
Qed.

(** The [Group] case of [drawGroundGraphics] is a fold over the members. *)
Lemma drawGroundGraphics_group hitboxes graphics scale :
  drawGroundGraphics PIXI_SCALE Math_PI (GroupHitbox hitboxes) graphics scale
  = fold_left
      (fun g hitBox => drawGroundGraphics PIXI_SCALE Math_PI hitBox g None)
      hitboxes graphics.
Proof. reflexivity. Qed.

Lemma leaves_group (hitboxes : list (Hitbox num)) :
  leaves (GroupHitbox hitboxes) = flat_map leaves hitboxes.
Proof.
  cbn [leaves]. induction hitboxes as [|h rest IH]; [done|].
  cbn [flat_map]. by rewrite <- IH.
Qed.

(** X24: [drawGroundGraphics] draws the hitboxes that are no groups, one call
    each, in order, after what the graphics object held; and the [scale] it is
    given reaches only a hitbox that is no group itself: the members of a
    group, at any depth, are drawn at [PIXI_SCALE] whatever scale was asked
    for. *)
Theorem drawGroundGraphics_calls (hitbox : Hitbox num)
    (graphics : list (Graphics.call num)) (scale : option num) :
  drawGroundGraphics PIXI_SCALE Math_PI hitbox graphics scale
  = graphics
    ++ flat_map
         (fun leaf =>
            drawGroundGraphics PIXI_SCALE Math_PI leaf []
              (match hitbox with GroupHitbox _ => None | _ => scale end))
         (leaves hitbox).
Proof.
  revert graphics scale.
  induction hitbox as [p r|a b|c ps ns|hitboxes IH] using Hitbox_nested_ind;
    intros graphics scale; try (cbn; reflexivity).
  rewrite drawGroundGraphics_group, leaves_group.
  revert graphics. induction IH as [|h rest Hh _ IHrest]; intros graphics.
  - cbn. by rewrite app_nil_r.
  - cbn [fold_left flat_map]. rewrite IHrest, (Hh graphics None).
    rewrite flat_map_app, <- app_assoc. f_equal. f_equal.
    by destruct h.
Qed.

(** The [Group] case of [drawHitbox] is a fold over the members, between
    the opening and the closing calls. *)
Lemma drawHitbox_group hitboxes color graphics alpha :
  eqb alpha (ofQ 0) = false ->
  drawHitbox PIXI_SCALE Math_PI (GroupHitbox hitboxes) color graphics (Some alpha)
  = fold_left
      (fun g h => drawHitbox PIXI_SCALE Math_PI h color g (Some alpha))
      hitboxes
      (graphics ++ [Graphics.setStrokeStyle color (ofQ 2) alpha; Graphics.beginPath])
    ++ [Graphics.closePath; Graphics.stroke].
Proof.
  intros Ha. cbn [drawHitbox from_option Datatypes.id]. rewrite Ha. reflexivity.
Qed.

(** X25: [drawHitbox] with an [alpha] equal to 0 draws nothing, whatever the
    hitbox.  With any other [alpha] it only adds calls after what the
    graphics object held: one path - begun, closed and stroked - for every
    hitbox of the tree, the groups themselves included, and every stroke
    style set on the way has the given colour, width 2 and the given
    [alpha]. *)
Theorem drawHitbox_strokes (hitbox : Hitbox num) (color : nat)
    (graphics : list (Graphics.call num)) (alpha : num) :
  (eqb alpha (ofQ 0) = true ->
   drawHitbox PIXI_SCALE Math_PI hitbox color graphics (Some alpha) = graphics)
  /\ (eqb alpha (ofQ 0) = false ->
      exists calls,
        drawHitbox PIXI_SCALE Math_PI hitbox color graphics (Some alpha)
        = graphics ++ calls
        /\ length (List.filter is_beginPath calls) = nodes hitbox
        /\ length (List.filter is_closePath calls) = nodes hitbox
        /\ length (List.filter is_stroke calls) = nodes hitbox
        /\ Forall (styled color alpha) calls).
Proof.
  split.
  - intros Ha. destruct hitbox; cbn [drawHitbox from_option Datatypes.id]; by rewrite Ha.
  - intros Ha. revert graphics.
    assert (Hstyle : styled color alpha (Graphics.setStrokeStyle color (ofQ 2) alpha))
      by (by intros ? ? ? [= -> -> ->]).
    assert (Hother : forall c : Graphics.call num,
               (forall color' width alpha',
                   c <> Graphics.setStrokeStyle color' width alpha') ->
               styled color alpha c)
      by (intros c Hc ? ? ? Heq; by destruct (Hc _ _ _ Heq)).
    induction hitbox as [p r|a b|c ps ns|hitboxes IH] using Hitbox_nested_ind;
      intros graphics.
    1-3: cbn [drawHitbox from_option Datatypes.id]; rewrite Ha; rewrite <- !app_assoc;
         eexists; (split; [reflexivity|]); cbn;
         repeat split; repeat (constructor; [by (apply Hstyle || apply Hother)|]);
         constructor.
    rewrite (drawHitbox_group _ _ _ _ Ha).
    assert (Hmembers : forall g, exists calls,
               fold_left
                 (fun g h => drawHitbox PIXI_SCALE Math_PI h color g (Some alpha))
                 hitboxes g
               = g ++ calls
               /\ length (List.filter is_beginPath calls)
                  = pred (nodes (GroupHitbox hitboxes))
               /\ length (List.filter is_closePath calls)
                  = pred (nodes (GroupHitbox hitboxes))
               /\ length (List.filter is_stroke calls)
                  = pred (nodes (GroupHitbox hitboxes))
               /\ Forall (styled color alpha) calls).
    { cbn [nodes pred].
      induction IH as [|h rest Hh _ IHrest]; intros g.
      - exists []. rewrite app_nil_r. by repeat split.
      - cbn [fold_left]. destruct (Hh g) as (c1 & -> & Hb1 & Hc1 & Hs1 & Hf1).
        destruct (IHrest (g ++ c1)) as (c2 & -> & Hb2 & Hc2 & Hs2 & Hf2).
        exists (c1 ++ c2). rewrite <- app_assoc. split; [done|].
        rewrite !List.filter_app, !length_app, Hb1, Hc1, Hs1, Hb2, Hc2, Hs2.
        repeat split; try done. by apply Forall_app. }
    destruct (Hmembers (graphics ++ [Graphics.setStrokeStyle color (ofQ 2) alpha;
                                     Graphics.beginPath]))
      as (calls & -> & Hb & Hc & Hs & Hf).
    exists ([Graphics.setStrokeStyle color (ofQ 2) alpha; Graphics.beginPath]
            ++ calls ++ [Graphics.closePath; Graphics.stroke]).
    rewrite <- !app_assoc. split; [done|].
    rewrite !List.filter_app, !length_app, Hb, Hc, Hs.
    cbn [nodes pred List.filter is_beginPath is_closePath is_stroke length app].
    repeat split; try lia.
    repeat (constructor; [by (apply Hstyle || apply Hother)|]).
    apply Forall_app. split; [done|].
    repeat (constructor; [by (apply Hstyle || apply Hother)|]). constructor.
Qed.

End DrawingMore.

(** ** Executions *)

(** A grenade thrown at 0.05 units per millisecond over empty ground. *)
Lemma airborne_after_tick_witness :
  let W : Externals float := circleWorld [] in
  let s : Sim float := flying (vec 0.05 0) in
  let game : Game float := tick 25 30 in
  c4 (definition (self s)) = false
  /\ airborne (self (update (E := W) game s))
     = airborne (self s)
       && (tick_squaredVel (E := W) game s >=? impactDamage_threshold)%num.
Proof.
  cbn zeta. split; [reflexivity|].
  apply (airborne_after_tick (num := float) (E := circleWorld [])). reflexivity.
Defined.

(** The grenade bounces off the wall; its rotation advances all the same. *)
Lemma rotation_after_tick_witness :
  let W : Externals float := circleWorld [wall] in
  let s : Sim float := flying (vec 0.05 0) in
  let game : Game float := tick 25 30 in
  c4 (definition (self s)) = false
  /\ rotation (self (update (E := W) game s))
     = Angle_normalize (Externals := W)
         (rotation (self s) + angularVelocity (self s) * dt game)%num.
Proof.
  cbn zeta. split; [reflexivity|].
  apply (rotation_after_tick (num := float) (E := circleWorld [wall])). reflexivity.
Defined.

(** A slow grenade next to the wall, the thrower standing on it. *)
Lemma harmless_below_threshold_witness :
  let W : Externals float := circleWorld [thrower; wall] in
  let s : Sim float := mkSim (grenade (vec 0.01 0)) (arena (vec 500 500)) [] [] in
  let game : Game float := tick 25 30 in
  tick_shouldDeal (E := W) game s = false
  /\ world (update (E := W) game s) = world s
  /\ exists evs,
      trace (update (E := W) game s) = evs ++ trace s
      /\ (forall e, e ∈ evs ->
            (forall target amount source, e <> Damage target amount source)
            /\ (forall i,
                   (forall o, o ∈ candidates (E := W) game s -> id o = i ->
                              isPlayer o = true) ->
                   target_of e <> Some i)).
Proof.
  cbn zeta. split; [vm_compute; reflexivity|].
  apply (harmless_below_threshold (num := float)
           (E := circleWorld [thrower; wall])).
  vm_compute. reflexivity.
Defined.

(** A staircase under the grenade. *)
Lemma stairs_only_hooked_witness :
  let stairs := mkGameObject 2 Obstacle true Never in
  let W : Externals float := circleWorld [stairs] in
  let s : Sim float := mkSim (grenade (vec 0.05 0)) (arena (vec 500 500)) [] [] in
  let game : Game float := tick 25 30 in
  (forall o, o ∈ candidates (E := W) game s -> id o = 2%nat ->
             isObstacle o && isStair o = true)
  /\ exists evs,
      trace (update (E := W) game s) = evs ++ trace s
      /\ (forall e, e ∈ evs -> target_of e = Some 2%nat -> e = StairInteraction 2%nat).
Proof.
  cbn zeta.
  assert (H : forall o : GameObject,
             o ∈ candidates (E := circleWorld [mkGameObject 2 Obstacle true Never])
                   (tick 25 30 : Game float)
                   (mkSim (grenade (vec 0.05 0)) (arena (vec 500 500)) [] []) ->
             id o = 2%nat -> isObstacle o && isStair o = true).
  { intros o Ho _. cbn in Ho.
    apply elem_of_cons in Ho as [->|Ho]; [reflexivity|].
    by apply elem_of_nil in Ho. }
  split; [exact H|].
  exact (stairs_only_hooked (num := float)
           (E := circleWorld [mkGameObject 2 Obstacle true Never])
           (tick 25 30) _ 2%nat H).
Defined.

(** A closed door that may always be flown over, where the wall used to be. *)
Lemma closed_door_blocks_witness :
  let door := mkGameObject 1 Obstacle false Always in
  let W : Externals float := circleWorld [door] in
  let w : World float := fun _ =>
    Obj.mkState false true (Some (CircleHitbox (vec 501.5 500) (ofQ 1))) 0%Z
      (Some false) in
  let s : Sim float := mkSim (grenade (vec 0.05 0)) w [] [] in
  let game : Game float := tick 25 30 in
  candidates (E := W) game s = [] ++ door :: []
  /\ Obj.door (world s 1%nat) = Some false
  /\ Obj.dead (world s 1%nat) = false
  /\ Obj.collidable (world s 1%nat) = true
  /\ currentDrag (self (update (E := W) game s)) = Harsh
  /\ (1%nat ∈ currentlyAbove (self (update (E := W) game s))
      <-> 1%nat ∈ currentlyAbove (self s)).
Proof.
  cbn zeta. do 4 (split; [reflexivity|]).
  apply (closed_door_blocks (num := float)
           (E := circleWorld [mkGameObject 1 Obstacle false Always])
           (tick 25 30) _ (mkGameObject 1 Obstacle false Always) [] []).
  - reflexivity.
  - reflexivity.
  - cbn. repeat constructor. set_solver.
  - reflexivity.
  - reflexivity.
  - reflexivity.
  - reflexivity.
  - vm_compute. reflexivity.
Defined.

(** The wall was damaged during the last tick and is hit again. *)
Lemma damagedLastTick_fresh_witness :
  let W : Externals float := circleWorld [wall] in
  let s : Sim float :=
    mkSim (set_damagedLastTick (grenade (vec 0.05 0)) {[ 1%nat ]})
      (arena (vec 100 100)) [] [] in
  let game : Game float := tick 25 30 in
  c4 (definition (self s)) = false
  /\ exists evs,
      trace (update (E := W) game s) = evs ++ trace s
      /\ forall j, j ∈ damagedLastTick (self (update (E := W) game s)) ->
                   (j ∉ damagedLastTick (self s))
                   /\ exists amount source, Damage j amount source ∈ evs.
Proof.
  cbn zeta. split; [reflexivity|].
  apply (damagedLastTick_fresh (num := float) (E := circleWorld [wall])).
  reflexivity.
Defined.

(** A dead grenade with two timers pending. *)
Lemma dead_never_explodes_witness :
  let s : Sim float :=
    mkSim (set_dead (grenade (vec 0.05 0)) true) (arena (vec 100 100))
      [ofQ 4000; ofQ 4000] [] in
  let ops := [OpTimeout; OpUpdate (tick 25 30); OpDetonate (ofQ 10); OpTimeout;
              OpTimeout] in
  dead (self s) = true
  /\ explosions (trace (run (E := circleWorld [wall]) ops s))
     = explosions (trace s).
Proof.
  cbn zeta. split; [reflexivity|].
  apply (dead_never_explodes (num := float) (E := circleWorld [wall])).
  reflexivity.
Defined.

(** A C4 stuck to the wall, pushed before the three ticks. *)
Lemma c4_stays_put_witness :
  let W : Externals float := circleWorld [wall] in
  let charge : ThrowableDefinition float :=
    mkDefinition true (ofQ 0.15) None None (Some (ofQ 40)) (Some 9%nat) in
  let s : Sim float :=
    push (E := W) (ofQ 0) (ofQ 0.05)
      (construct (E := W) (ofQ 0) (arena (vec 100 100)) (vec 500 500) 0%Z
         charge thrower (ofQ 1)) in
  let s' := run (E := W) (map OpUpdate [tick 25 30; tick 25 55; tick 25 80]) s in
  c4 (definition (self s)) = true
  /\ position (self s') = position (self s)
  /\ velocity (self s') = velocity (self s)
  /\ trace s' = trace s
  /\ airborne (self s') = false.
Proof.
  cbn zeta.
  pose proof (c4_stays_put (num := float) (E := circleWorld [wall])
                [tick 25 30; tick 25 55; tick 25 80]
                (push (E := circleWorld [wall]) (ofQ 0) (ofQ 0.05)
                   (construct (E := circleWorld [wall]) (ofQ 0)
                      (arena (vec 100 100)) (vec 500 500) 0%Z
                      (mkDefinition true (ofQ 0.15) None None (Some (ofQ 40))
                         (Some 9%nat))
                      thrower (ofQ 1)))) as H.
  cbn zeta in H.
  destruct H as (Hp & Hv & _ & _ & _ & _ & Ht & _ & Ha); [vm_compute; reflexivity|].
  split; [vm_compute; reflexivity|].
  split; [exact Hp|]. split; [exact Hv|]. split; [exact Ht|].
  apply Ha. discriminate.
Defined.

(** The grenade next to the wall, in exact arithmetic. *)
Lemma stays_in_world_witness :
  let W : Externals R := circleWorld [wall] in
  let s : Sim R := flying (vec 0.05 0) in
  let game : Game R := tick 25 30 in
  (radius (self s) <= Vec.x (position (self (update (E := W) game s)))
     <= map_width game - radius (self s)
   /\ radius (self s) <= Vec.y (position (self (update (E := W) game s)))
     <= map_height game - radius (self s))%R.
Proof.
  cbn zeta. apply (stays_in_world (E := circleWorld [wall])).
  - reflexivity.
  - cbn. unfold Q2R. cbn. lra.
  - cbn. unfold Q2R. cbn. lra.
Defined.

(** A grenade faster than its speed cap of 0.15. *)
Lemma safeDisplacement_capped_witness :
  let this : ThrowableProjectile R := grenade (vec 0.5 0) in
  let halfDt : R := 12.5%R in
  let cap := (speedCap (definition this) * halfDt)%R in
  let plain := Vec.scale (velocity this) halfDt in
  (Vec.squaredLength (calculateSafeDisplacement this halfDt) <= cap * cap)%R
  /\ ((Vec.length plain <= cap)%R -> calculateSafeDisplacement this halfDt = plain)
  /\ exists k, (0 <= k <= 1)%R
               /\ calculateSafeDisplacement this halfDt = Vec.scale plain k.
Proof.
  cbn zeta. apply safeDisplacement_capped.
  - cbn. unfold Q2R. cbn. lra.
  - lra.
Defined.

(** The same grenade through a tick of 25 ms. *)
Lemma integrate_capped_witness :
  let W : Externals R := circleWorld [] in
  let this : ThrowableProjectile R := grenade (vec 0.5 0) in
  let game : Game R := tick 25 30 in
  (Geometry.distanceSquared (position (integrate (E := W) game this))
     (position this)
   <= (speedCap (definition this) * dt game) * (speedCap (definition this) * dt game))%R.
Proof.
  cbn zeta. apply (integrate_capped (E := circleWorld [])).
  - cbn. unfold Q2R. cbn. lra.
  - cbn. unfold Q2R. cbn. lra.
Defined.

(** The velocity (3, 4) off the normal (1, 0). *)
Lemma reflect_keeps_two_fifths_witness :
  let v : Vector R := Vec.create 3%R 4%R in
  let n : Vector R := Vec.create 1%R 0%R in
  (Vec.squaredLength (reflect v n) = 0.16 * Vec.squaredLength v)%R.
Proof.
  cbn zeta. apply reflect_keeps_two_fifths.
  - intros [= H _]. lra.
  - cbn. lra.
Defined.

(** An obstacle that may always be flown over, where the wall used to be, and
    a grenade fast enough to do so: the obstacle enters [currentlyAbove]. *)
Lemma currentlyAbove_members_witness :
  let crate := mkGameObject 1 Obstacle false Always in
  let W : Externals float := circleWorld [crate] in
  let s : Sim float := flying (vec 0.05 0) in
  let game : Game float := tick 25 30 in
  1%nat ∈ currentlyAbove (self (update (E := W) game s))
  /\ (1%nat ∈ currentlyAbove (self s)
      \/ exists o, o ∈ candidates (E := W) game s /\ id o = 1%nat
                   /\ isObstacle o || isBuilding o = true).
Proof.
  cbn zeta.
  assert (H : 1%nat ∈ currentlyAbove
                (self (update (E := circleWorld [mkGameObject 1 Obstacle false Always])
                         (tick 25 30 : Game float) (flying (vec 0.05 0))))).
  { apply (bool_decide_unpack _). vm_compute. exact I. }
  split; [exact H|].
  exact (currentlyAbove_members (num := float)
           (E := circleWorld [mkGameObject 1 Obstacle false Always])
           (tick 25 30) _ 1%nat H).
Defined.

(** A smoke grenade with 40 health, which is no C4, thrown by someone whose
    list holds the C4s 3 and 4, takes 50 damage: C4 number 4 leaves the list. *)
Lemma destruction_deregisters_witness :
  let W : Externals float := circleWorld [wall] in
  let smoke : ThrowableDefinition float :=
    mkDefinition false (ofQ 0.15) None None (Some (ofQ 40)) None in
  let s : Sim float :=
    damage (ofQ 50)
      (construct (E := W) (ofQ 0) (arena (vec 100 100)) (vec 500 500) 0%Z smoke
         thrower (ofQ 1)) in
  dead (self s) = true
  /\ c4s_after 5 (trace s) [3; 4]%nat = [3%nat].
Proof.
  cbn zeta.
  apply (destruction_deregisters (num := float) (E := circleWorld [wall])
           (ofQ 0) (arena (vec 100 100)) (vec 500 500) 0%Z
           (mkDefinition false (ofQ 0.15) None None (Some (ofQ 40)) None)
           thrower (ofQ 1) (ofQ 40) (ofQ 50) 5%nat [3; 4]%nat).
  - reflexivity.
  - vm_compute. reflexivity.
  - vm_compute. reflexivity.
  - set_solver.
Defined.

(** 40 health, a hit of 50 and then a hit of 10, in exact arithmetic. *)
Lemma damage_after_destruction_witness :
  let s : Sim R :=
    mkSim (set_health (grenade (vec 0 0)) (Some 40%R)) (arena (vec 100 100)) [] [] in
  ((40 < 50)%R ->
   trace (damage 10%R (damage 50%R s))
   = RemoveProjectile :: DeregisterC4 :: RemoveProjectile :: DeregisterC4 :: trace s)
  /\ (50%R = 40%R -> damage 10%R (damage 50%R s) = damage 50%R s).
Proof.
  cbn zeta. apply damage_after_destruction.
  - reflexivity.
  - lra.
  - lra.
  - lra.
Defined.

(** A group of two circles, both away from the grenade. *)
Lemma group_without_contact_witness :
  let W : Externals float := circleWorld [wall] in
  let far := [CircleHitbox (vec 510 500) (ofQ 1); CircleHitbox (vec 520 500) (ofQ 1)] in
  let w : World float := fun _ =>
    Obj.mkState false true (Some (GroupHitbox far)) 0%Z None in
  let s : Sim float := mkSim (grenade (vec 0.05 0)) w [] [] in
  resolve (E := W) (radius (self s)) (GroupHitbox far) (position (self s))
  = (None, position (self s))
  /\ self (handleCollision (E := W) wall s) = self s.
Proof.
  cbn zeta.
  apply (group_without_contact (num := float) (E := circleWorld [wall]) wall).
  - reflexivity.
  - repeat constructor.
Defined.

(** A C4 with 40 health, registered by its constructor after the C4s 3 and 4
    of the same thrower, takes 50 damage. *)
Lemma deregister_removes_one_witness :
  let W : Externals float := circleWorld [wall] in
  let charge : ThrowableDefinition float :=
    mkDefinition true (ofQ 0.15) None None (Some (ofQ 40)) (Some 9%nat) in
  let s : Sim float :=
    construct (E := W) (ofQ 0) (arena (vec 100 100)) (vec 500 500) 0%Z charge
      thrower (ofQ 1) in
  let before := c4s_after 5 (trace s) [3; 4]%nat in
  let after := c4s_after 5 (trace (damage (ofQ 50) s)) [3; 4]%nat in
  before = [3; 4; 5]%nat
  /\ after = [3; 4]%nat
  /\ length after = pred (length before).
Proof.
  cbn zeta.
  destruct (deregister_removes_one (num := float)
              (construct (E := circleWorld [wall]) (ofQ 0) (arena (vec 100 100))
                 (vec 500 500) 0%Z
                 (mkDefinition true (ofQ 0.15) None None (Some (ofQ 40)) (Some 9%nat))
                 thrower (ofQ 1))
              (ofQ 40) (ofQ 50) 5%nat [3; 4]%nat) as (Hin & _ & Hlen).
  - vm_compute. reflexivity.
  - vm_compute. reflexivity.
  - vm_compute. reflexivity.
  - split; [vm_compute; reflexivity|]. split; [|exact Hlen].
    apply (Hin [3; 4]%nat []); [vm_compute; reflexivity | set_solver].
Defined.
